(** * LSB steganography over P6 PPM images

    A shallow embedding of [prj1/ppm.js] and [prj1/steg_module.js]:
    the PPM container codec ([Ppm], [ppmFormat], [BufIndex]) and the
    [StegModule] operations [hide], [unhide], [checkMagic], [unhideLo].

    Conventions of the embedding.
    - A [Uint8Array] is a [list byte]; reading an element yields its value
      as an integer ([u8]), storing converts with [ToUint8] (wrap modulo
      256).  An out-of-range read is [undefined], which the bit operators
      coerce to 0; an out-of-range store is ignored.  stdpp's list lookup
      and insert have exactly these shapes.
    - Typed arrays are objects that live in a heap and are reached through
      references, so that aliasing between a source image and the result of
      [hide] is visible.
    - A JavaScript string is the list of its UTF-16 code units.
    - [while] loops take a fuel argument and answer [None] when it runs
      out; the callers supply the fuel and the theorems show that it is
      always enough. *)

From Stdlib Require Import ZArith QArith Lia.
From Stdlib Require Import Strings.Byte.
From stdpp Require Import base option numbers list strings.

Open Scope nat_scope.

(** ** Bytes and typed arrays *)

Abbreviation Uint8Array := (list byte).

(** The numeric value of an element of a [Uint8Array]. *)
Definition u8 (b : byte) : Z := Z.of_N (Byte.to_N b).

(** Conversion applied by a store into a [Uint8Array]. *)
Definition ToUint8 (v : Z) : byte :=
  default Byte.x00 (Byte.of_N (Z.to_N (v mod 256))).

(** [bytes[i]] as seen by a bit operator: [undefined] is coerced to 0. *)
Definition load (bytes : Uint8Array) (i : nat) : Z :=
  from_option u8 0%Z (bytes !! i).

(** ** The heap of typed arrays *)

Abbreviation loc := nat.
Abbreviation heap := (list (list byte)).

Definition heap_get (h : heap) (l : loc) : Uint8Array := default [] (h !! l).

(** [new Uint8Array(...)] / [slice()]: a fresh array holding [a]. *)
Definition heap_alloc (h : heap) (a : Uint8Array) : heap * loc :=
  (h ++ [a], length h).

(** [arr[i] = v] through the reference [l]. *)
Definition heap_store (h : heap) (l : loc) (i : nat) (v : Z) : heap :=
  match h !! l with
  | Some a => <[l := <[i := ToUint8 v]> a]> h
  | None => h
  end.

(** [arr[i]] through the reference [l], coerced by a bit operator. *)
Definition heap_load (h : heap) (l : loc) (i : nat) : Z := load (heap_get h l) i.

(** ** ppm.js *)

Record Ppm := mkPpm {
  width : Z;
  height : Z;
  maxColors : Z;
  hdrBytes : loc;
  pixelBytes : loc
}.

Inductive Ppm_result :=
| PpmError               (* { error: 'bad image format' } *)
| PpmOk (p : Ppm).

(** [CTYPES]: the whitespace characters ' \t\n\r' and the ten digits. *)
Definition isspace (b : byte) : bool :=
  let c := u8 b in
  ((c =? 32) || (c =? 9) || (c =? 10) || (c =? 13))%Z.

Definition isdigit (b : byte) : bool :=
  let c := u8 b in ((48 <=? c) && (c <=? 57))%Z.

(** [while (index < buf.length && p(buf[index])) index++], written by
    recursion on the part of the buffer that starts at [index]. *)
Fixpoint advance_while (p : byte -> bool) (rest : Uint8Array) (index : nat) : nat :=
  match rest with
  | b :: rest' => if p b then advance_while p rest' (S index) else index
  | [] => index
  end.

Definition advanceOverNextInt (buf : Uint8Array) (index : nat) : Z :=
  let index := advance_while isspace (drop index buf) index in
  match buf !! index with
  | None => (-1)%Z
  | Some b =>
      if negb (isdigit b) then (-1)%Z
      else Z.of_nat (advance_while isdigit (drop index buf) index)
  end.

(** [Number(str)] on a string made of whitespace followed by decimal
    digits, which is all [nextInt] passes to it.  The value is exact as
    long as it stays below 2^53. *)
Definition Number_of (str : Uint8Array) : Z :=
  fold_left (fun acc b => if isdigit b then (10 * acc + (u8 b - 48))%Z else acc) str 0%Z.

(** [bytes.slice(from, to)]. *)
Definition slice (bytes : Uint8Array) (from to : nat) : Uint8Array :=
  take (to - from) (drop from bytes).

(** [BufIndex]: the buffer is never changed, only the index moves, so each
    method takes the index and returns the new one with its result;
    [None] is [undefined]. *)
Definition nextChar (buf : Uint8Array) (index : nat) : option Z * nat :=
  if index <? length buf then (Some (load buf index), S index) else (None, index).

Definition nextInt (buf : Uint8Array) (index : nat) : option Z * nat :=
  let nextIndex := advanceOverNextInt buf index in
  if (nextIndex >? 0)%Z then
    (Some (Number_of (slice buf index (Z.to_nat nextIndex))), Z.to_nat nextIndex)
  else (None, index).

Definition PPM_FORMAT : list Z := [80; 54]%Z.   (* 'P6' *)

Record format := mkFormat {
  f_width : Z;
  f_height : Z;
  f_maxColors : Z;
  f_pixelsIndex : nat
}.

(** [x !== PPM_FORMAT[k]] for a character or [undefined]. *)
Definition char_differs (c : option Z) (k : nat) : bool :=
  match c, PPM_FORMAT !! k with
  | Some x, Some y => negb (x =? y)%Z
  | _, _ => true
  end.

Definition ppmFormat (bytes : Uint8Array) : option format :=
  let '(c0, i1) := nextChar bytes 0 in
  let '(c1, i2) := nextChar bytes i1 in
  if char_differs c0 0 && char_differs c1 1 then None
  else
    let '(width, i3) := nextInt bytes i2 in
    let '(height, i4) := nextInt bytes i3 in
    let '(maxColors, i5) := nextInt bytes i4 in
    let pixelsIndex := i5 + 1 in
    match width, height, maxColors with
    | Some w, Some hgt, Some mc =>
        if (w >? 0)%Z && (hgt >? 0)%Z && (mc =? 255)%Z &&
           (Z.of_nat (length bytes) =? Z.of_nat pixelsIndex + w * hgt * 3)%Z
        then Some (mkFormat w hgt mc pixelsIndex)
        else None
    | _, _, _ => None   (* a comparison with [undefined] is false *)
    end.

(** [new Ppm(ppm)]: a deep copy, both arrays are [slice()]d. *)
Definition Ppm_copy (h : heap) (p : Ppm) : heap * Ppm :=
  let '(h1, hdr) := heap_alloc h (heap_get h (hdrBytes p)) in
  let '(h2, pix) := heap_alloc h1 (heap_get h1 (pixelBytes p)) in
  (h2, mkPpm (width p) (height p) (maxColors p) hdr pix).

(** [new Ppm(bytes)] for a [Uint8Array]. *)
Definition Ppm_parse (h : heap) (bytes : Uint8Array) : heap * Ppm_result :=
  match ppmFormat bytes with
  | None => (h, PpmError)
  | Some f =>
      let '(h1, hdr) := heap_alloc h (slice bytes 0 (f_pixelsIndex f)) in
      let '(h2, pix) := heap_alloc h1 (drop (f_pixelsIndex f) bytes) in
      (h2, PpmOk (mkPpm (f_width f) (f_height f) (f_maxColors f) hdr pix))
  end.

(** [dst.set(src, offset)]; it would throw a RangeError when [src] does
    not fit, which [Ppm.prototype.bytes] rules out by sizing [dst]. *)
Definition typed_array_set (dst src : Uint8Array) (offset : nat) : Uint8Array :=
  take offset dst ++ src ++ drop (offset + length src) dst.

(** [Ppm.prototype.bytes]. *)
Definition Ppm_bytes (h : heap) (p : Ppm) : heap * loc :=
  let hdr := heap_get h (hdrBytes p) in
  let pix := heap_get h (pixelBytes p) in
  let bytes := replicate (length hdr + length pix) Byte.x00 in
  let bytes := typed_array_set bytes hdr 0 in
  let bytes := typed_array_set bytes pix (length hdr) in
  heap_alloc h bytes.

(** ** steg_module.js *)

(** A JavaScript string: its UTF-16 code units. *)
Abbreviation jsstring := (list Z).

Definition STEG_MAGIC : jsstring := [115; 116; 103]%Z.   (* 'stg' *)
Definition STEG_MAGIC_LEN : nat := length STEG_MAGIC.
Definition CHAR_BIT : nat := 8.

Record StegModule := mkSteg { id : string; ppm : Ppm }.

(** The error strings start with one of four identifiers, followed by the
    id of the module. *)
Inductive steg_error :=
| STEG_MSG (id : string)
| STEG_TOO_BIG (id : string)
| STEG_NO_MSG (id : string)
| STEG_BAD_MSG (id : string).

Inductive hide_result :=
| HideError (e : steg_error)
| HidePpm (ppmOut : Ppm).

Inductive unhide_result :=
| UnhideError (e : steg_error)
| UnhideMsg (msg : jsstring).

(** What [unhideLo] returns: a string or [undefined]. *)
Inductive jsval :=
| JsStr (s : jsstring)
| JsUndefined.

(** [v === s] for a string [s]. *)
Definition strict_eq_str (v : jsval) (s : jsstring) : bool :=
  match v with
  | JsStr x => bool_decide (x = s)
  | JsUndefined => false
  end.

(** [x !== 0] for a number or [undefined] ([None]). *)
Definition strict_ne_zero (x : option Z) : bool :=
  match x with
  | Some v => negb (v =? 0)%Z
  | None => true
  end.

(** The inner loop of [unhideLo],
    [while (mask !== 0 && i < maxOffset) { ... bytes[i++] ... }];
    [reads] records every index at which [bytes] is read. *)
Fixpoint unhideLo_bits (fuel : nat) (bytes : Uint8Array) (maxOffset i : nat)
    (mask charCode : Z) (reads : list nat) : option (nat * Z * Z * list nat) :=
  if negb (mask =? 0)%Z && (i <? maxOffset) then
    match fuel with
    | O => None
    | S fuel' =>
        let charCode' :=
          if negb (Z.land (load bytes i) 1 =? 0)%Z then Z.lor charCode mask
          else charCode in
        unhideLo_bits fuel' bytes maxOffset (S i) (Z.shiftr mask 1) charCode'
          (reads ++ [i])
    end
  else Some (i, mask, charCode, reads).

(** The outer loop of [unhideLo], [while (i < maxOffset) { ... }].
    [charCode] and [mask] are [undefined] until the body has run once. *)
Fixpoint unhideLo_chars (fuel : nat) (bytes : Uint8Array) (maxOffset : nat)
    (msgLen : Z) (i : nat) (msg : jsstring) (charCode mask : option Z)
    (reads : list nat) : option (jsstring * option Z * option Z * list nat) :=
  if i <? maxOffset then
    match fuel with
    | O => None
    | S fuel' =>
        match unhideLo_bits CHAR_BIT bytes maxOffset i
                (Z.shiftl 1 (Z.of_nat (CHAR_BIT - 1))) 0%Z reads with
        | None => None
        | Some (i', mask', charCode', reads') =>
            if (charCode' =? 0)%Z then
              Some (msg, Some charCode', Some mask', reads')
            else
              let msg' := msg ++ [charCode'] in
              if (msgLen >? 0)%Z && (Z.of_nat (length msg') >=? msgLen)%Z then
                Some (msg', Some charCode', Some mask', reads')
              else
                unhideLo_chars fuel' bytes maxOffset msgLen i' msg'
                  (Some charCode') (Some mask') reads'
        end
    end
  else Some (msg, charCode, mask, reads).

(** [StegModule.prototype.unhideLo], on the array [this.ppm.pixelBytes]
    refers to; the second component lists the indices read.  The default
    value of [msgLen] is -1. *)
Definition unhideLo (bytes : Uint8Array) (msgCharOffset : nat) (msgLen : Z)
    : option (jsval * list nat) :=
  let maxOffset := length bytes / 8 * 8 in
  let i := msgCharOffset * CHAR_BIT in
  '(msg, charCode, mask, reads) ←
     unhideLo_chars (length bytes) bytes maxOffset msgLen i [] None None [];
  if (msgLen <? 0)%Z && (strict_ne_zero mask || strict_ne_zero charCode)
  then Some (JsUndefined, reads)
  else Some (JsStr msg, reads).

(** [StegModule.prototype.checkMagic]. *)
Definition checkMagic (h : heap) (this : StegModule) : option (bool * list nat) :=
  '(magic, reads) ←
     unhideLo (heap_get h (pixelBytes (ppm this))) 0 (Z.of_nat STEG_MAGIC_LEN);
  Some (strict_eq_str magic STEG_MAGIC, reads).

(** [StegModule.prototype.unhide]; the second component lists the indices
    of [pixelBytes] read on the way. *)
Definition unhide (h : heap) (this : StegModule)
    : option (unhide_result * list nat) :=
  '(magic, reads1) ← checkMagic h this;
  if negb magic then Some (UnhideError (STEG_NO_MSG (id this)), reads1)
  else
    '(msg, reads2) ←
       unhideLo (heap_get h (pixelBytes (ppm this))) STEG_MAGIC_LEN (-1);
    match msg with
    | JsUndefined => Some (UnhideError (STEG_BAD_MSG (id this)), reads1 ++ reads2)
    | JsStr s => Some (UnhideMsg s, reads1 ++ reads2)
    end.

(** [for (const c of str)] walks a string by code points, so a high
    surrogate followed by a low surrogate is one [c]; [c.charCodeAt()] is
    the first code unit of [c]. *)
Definition is_high_surrogate (c : Z) : bool := ((55296 <=? c) && (c <=? 56319))%Z.
Definition is_low_surrogate (c : Z) : bool := ((56320 <=? c) && (c <=? 57343))%Z.

Fixpoint charCodes (s : jsstring) : list Z :=
  match s with
  | [] => []
  | c :: rest =>
      c :: match rest with
           | d :: rest' =>
               if is_high_surrogate c && is_low_surrogate d
               then charCodes rest' else charCodes rest
           | [] => []
           end
  end.

(** The inner loop of [hide], [while (mask != 0) { ... }], which writes
    through the reference [bytes]. *)
Fixpoint hide_bits (fuel : nat) (h : heap) (bytes : loc) (byteIndex : nat)
    (charCode mask : Z) : option (heap * nat) :=
  if negb (mask =? 0)%Z then
    match fuel with
    | O => None
    | S fuel' =>
        let h' :=
          if (Z.land charCode mask =? 0)%Z then
            heap_store h bytes byteIndex
              (Z.land (heap_load h bytes byteIndex) (Z.lnot 1))
          else
            heap_store h bytes byteIndex
              (Z.lor (heap_load h bytes byteIndex) 1) in
        hide_bits fuel' h' bytes (S byteIndex) charCode (Z.shiftr mask 1)
    end
  else Some (h, byteIndex).

(** The loop [for (const c of magicMsg)] of [hide], over the char codes. *)
Fixpoint hide_chars (codes : list Z) (h : heap) (bytes : loc) (byteIndex : nat)
    : option (heap * nat) :=
  match codes with
  | [] => Some (h, byteIndex)
  | charCode :: rest =>
      '(h', byteIndex') ←
         hide_bits CHAR_BIT h bytes byteIndex charCode
           (Z.shiftl 1 (Z.of_nat (CHAR_BIT - 1)));
      hide_chars rest h' bytes byteIndex'
  end.

(** [(STEG_MAGIC_LEN + msg.length + 1) > pixelBytes.length/CHAR_BIT]; the
    division is the division of numbers, not an integer division. *)
Definition too_big (msg_length pixel_length : nat) : bool :=
  negb (Qle_bool (inject_Z (Z.of_nat (STEG_MAGIC_LEN + msg_length + 1)))
          (Z.of_nat pixel_length # Pos.of_nat CHAR_BIT)).

(** [StegModule.prototype.hide]. *)
Definition hide (h : heap) (this : StegModule) (msg : jsstring)
    : option (heap * hide_result) :=
  '(magic, reads) ← checkMagic h this;
  if (magic : bool) then Some (h, HideError (STEG_MSG (id this)))
  else if too_big (length msg) (length (heap_get h (pixelBytes (ppm this))))
  then Some (h, HideError (STEG_TOO_BIG (id this)))
  else
    let '(h1, ppmOut) := Ppm_copy h (ppm this) in
    let bytes := pixelBytes ppmOut in
    let magicMsg := STEG_MAGIC ++ msg ++ [0%Z] in
    '(h2, byteIndex) ← hide_chars (charCodes magicMsg) h1 bytes 0;
    Some (h2, HidePpm ppmOut).

(** The spec's name for the number of payload bytes an array of [n] pixel
    bytes can carry, [floor(n / 8)]. *)
Definition capacityBytes (n : nat) : nat := n / 8.


(** ** steg.js of prj1, the command-line program *)

(** The messages [die] prints on stderr before [process.exit(1)]. *)
Inductive die_message :=
| CannotRead (ppmFileName : jsstring)   (* cannot read <file>: <err> *)
| BadImage (ppmFileName : jsstring)     (* <file>: bad image format *)
| Usage (program : option string).      (* usage: <program> PPM_FILE_NAME [MSG] *)

(** What one run of the program does. *)
Inductive run :=
| Died (m : die_message)                (* stderr, exit status 1 *)
| ConsoleError (e : steg_error)         (* console.error(result.error) *)
| StdoutWrite (bytes : Uint8Array)      (* process.stdout.write(...) *)
| ConsoleLog (msg : jsstring).          (* console.log(result.msg) *)

(** [doSteg].  [readFile] stands for [fs.readFile] ([None] when it reports
    an error) and [basename] for [path.basename], which turns the file
    name into the id of the module.  The process starts with an empty
    heap. *)
Definition doSteg (basename : jsstring -> string)
    (readFile : jsstring -> option Uint8Array) (ppmFileName : jsstring)
    (fn : heap -> StegModule -> option run) : option run :=
  match readFile ppmFileName with
  | None => Some (Died (CannotRead ppmFileName))
  | Some data =>
      let '(h0, bytes) := heap_alloc [] data in     (* new Uint8Array(data) *)
      match Ppm_parse h0 (heap_get h0 bytes) with
      | (h, PpmError) => Some (Died (BadImage ppmFileName))
      | (h, PpmOk ppm) => fn h (mkSteg (basename ppmFileName) ppm)
      end
  end.

(** [hide(steg, msg)] of the program. *)
Definition cli_hide (msg : jsstring) (h : heap) (steg : StegModule) : option run :=
  '(h', result) ← hide h steg msg;
  match result with
  | HideError e => Some (ConsoleError e)
  | HidePpm ppmOut =>
      let '(h'', bytes) := Ppm_bytes h' ppmOut in
      Some (StdoutWrite (heap_get h'' bytes))
  end.

(** [unhide(steg)] of the program. *)
Definition cli_unhide (h : heap) (steg : StegModule) : option run :=
  '(result, reads) ← unhide h steg;
  match result with
  | UnhideError e => Some (ConsoleError e)
  | UnhideMsg msg => Some (ConsoleLog msg)
  end.

(** [go(argv)]: dispatch on the number of arguments. *)
Definition go (basename : jsstring -> string)
    (readFile : jsstring -> option Uint8Array) (argv : list jsstring) : option run :=
  match argv with
  | [_; _; ppmFileName] => doSteg basename readFile ppmFileName cli_unhide
  | [_; _; ppmFileName; msg] =>
      doSteg basename readFile ppmFileName (cli_hide msg)
  | _ => Some (Died (Usage (basename <$> argv !! 1)))
  end.

(** ** steg-ws/steg.js: the reading side of [Steg] *)

(** The fields of the image that [Steg] reads: here the header and the
    pixels are in one array, [bytes], and [nHeaderBytes] tells where the
    pixels start. *)
Record WsPpm := mkWsPpm { ws_id : string; ws_bytes : loc; nHeaderBytes : nat }.

(** A [StegError] is thrown, or a message returned. *)
Inductive Steg_result :=
| StegThrow (e : steg_error)
| StegReturn (msg : jsstring).

(** [bytes[i]] under a bit operator, for an index that is a number. *)
Definition loadZ (bytes : Uint8Array) (i : Z) : Z :=
  if (i <? 0)%Z then 0%Z else load bytes (Z.to_nat i).

(** The inner loop of [Steg.prototype.unhideLo]. *)
Fixpoint Steg_unhideLo_bits (fuel : nat) (bytes : Uint8Array) (maxOffset i : Z)
    (mask charCode : Z) (reads : list Z) : option (Z * Z * Z * list Z) :=
  if negb (mask =? 0)%Z && (i <? maxOffset)%Z then
    match fuel with
    | O => None
    | S fuel' =>
        let charCode' :=
          if negb (Z.land (loadZ bytes i) 1 =? 0)%Z then Z.lor charCode mask
          else charCode in
        Steg_unhideLo_bits fuel' bytes maxOffset (i + 1)%Z (Z.shiftr mask 1)
          charCode' (reads ++ [i])
    end
  else Some (i, mask, charCode, reads).

(** The outer loop of [Steg.prototype.unhideLo]. *)
Fixpoint Steg_unhideLo_chars (fuel : nat) (bytes : Uint8Array) (maxOffset : Z)
    (msgLen : Z) (i : Z) (msg : jsstring) (charCode mask : option Z)
    (reads : list Z) : option (jsstring * option Z * option Z * list Z) :=
  if (i <? maxOffset)%Z then
    match fuel with
    | O => None
    | S fuel' =>
        match Steg_unhideLo_bits CHAR_BIT bytes maxOffset i
                (Z.shiftl 1 (Z.of_nat (CHAR_BIT - 1))) 0%Z reads with
        | None => None
        | Some (i', mask', charCode', reads') =>
            if (charCode' =? 0)%Z then
              Some (msg, Some charCode', Some mask', reads')
            else
              let msg' := msg ++ [charCode'] in
              if (msgLen >? 0)%Z && (Z.of_nat (length msg') >=? msgLen)%Z then
                Some (msg', Some charCode', Some mask', reads')
              else
                Steg_unhideLo_chars fuel' bytes maxOffset msgLen i' msg'
                  (Some charCode') (Some mask') reads'
        end
    end
  else Some (msg, charCode, mask, reads).

(** [Steg.prototype.unhideLo]; [Math.floor] of a division by 8 is [Z.div]. *)
Definition Steg_unhideLo (h : heap) (ppm : WsPpm) (msgCharOffset : nat)
    (msgLen : Z) : option (jsval * list Z) :=
  let nHeaderBytes := Z.of_nat (nHeaderBytes ppm) in
  let bytes := heap_get h (ws_bytes ppm) in
  let maxOffset :=
    (nHeaderBytes + (Z.of_nat (length bytes) - nHeaderBytes) / 8 * 8)%Z in
  let i := (nHeaderBytes + Z.of_nat msgCharOffset * Z.of_nat CHAR_BIT)%Z in
  '(msg, charCode, mask, reads) ←
     Steg_unhideLo_chars (length bytes) bytes maxOffset msgLen i [] None None [];
  if (msgLen <? 0)%Z && (strict_ne_zero mask || strict_ne_zero charCode)
  then Some (JsUndefined, reads)
  else Some (JsStr msg, reads).

(** [Steg.prototype.checkMagic]. *)
Definition Steg_checkMagic (h : heap) (ppm : WsPpm) : option (bool * list Z) :=
  '(magic, reads) ← Steg_unhideLo h ppm 0 (Z.of_nat STEG_MAGIC_LEN);
  Some (strict_eq_str magic STEG_MAGIC, reads).

(** [Steg.prototype.unhide]. *)
Definition Steg_unhide (h : heap) (ppm : WsPpm) : option (Steg_result * list Z) :=
  '(magic, reads1) ← Steg_checkMagic h ppm;
  if negb magic then Some (StegThrow (STEG_NO_MSG (ws_id ppm)), reads1)
  else
    '(msg, reads2) ← Steg_unhideLo h ppm STEG_MAGIC_LEN (-1);
    match msg with
    | JsUndefined => Some (StegThrow (STEG_BAD_MSG (ws_id ppm)), reads1 ++ reads2)
    | JsStr s => Some (StegReturn s, reads1 ++ reads2)
    end.

(** Indices into the whole file, from indices into the pixel bytes. *)
Definition shift_reads (n : nat) (reads : list nat) : list Z :=
  map (fun j => Z.of_nat (n + j)) reads.

(** The result of [unhide] as [Steg] reports it. *)
Definition as_Steg_result (r : unhide_result) : Steg_result :=
  match r with
  | UnhideError e => StegThrow e
  | UnhideMsg msg => StegReturn msg
  end.

(** ** Notions used to state what the loops compute *)

(** The least-significant bit of [bytes[i]], as [unhideLo] tests it. *)
Definition lsb_at (bytes : Uint8Array) (i : nat) : bool :=
  negb (Z.land (load bytes i) 1 =? 0)%Z.

(** The char code assembled from [n] successive pixel bytes from index [i]
    on, most significant bit first. *)
Fixpoint read_bits (n : nat) (bytes : Uint8Array) (i : nat) (mask charCode : Z) : Z :=
  match n with
  | O => charCode
  | S n' =>
      read_bits n' bytes (S i) (Z.shiftr mask 1)
        (if lsb_at bytes i then Z.lor charCode mask else charCode)
  end.

(** The value the 8 pixel bytes from index [i] on decode to. *)
Definition group_value (bytes : Uint8Array) (i : nat) : Z :=
  read_bits 8 bytes i 128 0.

(** The values decoded from [n] successive groups of 8 pixel bytes,
    starting with group number [g]. *)
Definition groups (bytes : Uint8Array) (g n : nat) : list Z :=
  map (fun j => group_value bytes (8 * j)) (seq g n).

(** The outer loop of [unhideLo] replayed on the decoded values. *)
Fixpoint scan (vals : list Z) (msgLen : Z) (msg : jsstring)
    (charCode mask : option Z) (k : nat) : jsstring * option Z * option Z * nat :=
  match vals with
  | [] => (msg, charCode, mask, k)
  | v :: vals' =>
      if (v =? 0)%Z then (msg, Some v, Some 0%Z, S k)
      else
        let msg' := msg ++ [v] in
        if (msgLen >? 0)%Z && (Z.of_nat (length msg') >=? msgLen)%Z
        then (msg', Some v, Some 0%Z, S k)
        else scan vals' msgLen msg' (Some v) (Some 0%Z) (S k)
  end.

(** One store of [hide]: pixel byte [i] with its low bit set to [bit]. *)
Definition set_lsb_at (bit : bool) (i : nat) (a : Uint8Array) : Uint8Array :=
  <[i := ToUint8 (if bit then Z.lor (load a i) 1
                  else Z.land (load a i) (Z.lnot 1))]> a.

(** The bits [bits] written to the low bits of [a] from index [i] on. *)
Fixpoint embed (bits : list bool) (i : nat) (a : Uint8Array) : Uint8Array :=
  match bits with
  | [] => a
  | bit :: bits' => embed bits' (S i) (set_lsb_at bit i a)
  end.

(** The tests [(charCode & mask) === 0] made by the inner loop of [hide],
    negated: the bits it writes. *)
Fixpoint mask_bits (fuel : nat) (charCode mask : Z) : option (list bool) :=
  if negb (mask =? 0)%Z then
    match fuel with
    | O => None
    | S fuel' =>
        cons (negb (Z.land charCode mask =? 0)%Z)
          <$> mask_bits fuel' charCode (Z.shiftr mask 1)
    end
  else Some [].

(** The 8 bits of a char code that [hide] writes, most significant first. *)
Definition bits8 (c : Z) : list bool :=
  map (fun m => negb (Z.land c m =? 0)%Z) [128; 64; 32; 16; 8; 4; 2; 1]%Z.

(** All the bits [hide] writes for the message [msg]. *)
Definition payload_bits (msg : jsstring) : list bool :=
  concat (map bits8 (charCodes (STEG_MAGIC ++ msg ++ [0%Z]))).

(** A message made of non-zero bytes. *)
Definition byte_message (msg : jsstring) : Prop :=
  Forall (fun c => 1 <= c <= 255)%Z msg.

(** The value of a list of bits, most significant first, accumulated the
    way the inner loop of [unhideLo] does. *)
Fixpoint bits_value (bits : list bool) (mask charCode : Z) : Z :=
  match bits with
  | [] => charCode
  | b :: bits' =>
      bits_value bits' (Z.shiftr mask 1) (if b then Z.lor charCode mask else charCode)
  end.

(** The values before the first zero. *)
Fixpoint nonzero_prefix (vals : list Z) : list Z :=
  match vals with
  | [] => []
  | v :: vals' => if (v =? 0)%Z then [] else v :: nonzero_prefix vals'
  end.

(** The low-order 8 bits of a char code. *)
Definition low8 (c : Z) : Z := Z.land c 255.

(** ** Concrete images *)

Definition bytes_of (l : list Z) : Uint8Array := map ToUint8 l.

(** The header "P6\n4 4\n255\n" of a 4x4 image. *)
Definition header_4x4 : Uint8Array :=
  bytes_of [80; 54; 10; 52; 32; 52; 10; 50; 53; 53; 10]%Z.

(** A 4x4 image: 48 pixel bytes, room for 6 payload bytes. *)
Definition plain_image : Uint8Array := header_4x4 ++ replicate 48 (ToUint8 7).

(** A 4x4 image all of whose pixel bytes are 0. *)
Definition zero_image : Uint8Array := header_4x4 ++ replicate 48 Byte.x00.

(** A 4x4 image file whose pixel bytes already carry the message 'Hi'. *)
Definition stego_image : Uint8Array :=
  header_4x4 ++ embed (payload_bits [72; 105]%Z) 0 (replicate 48 (ToUint8 7)).

(** The 2x1 image "P6 2 1 255\n" with 6 pixel bytes. *)
Definition tiny_image : Uint8Array :=
  bytes_of [80; 54; 32; 50; 32; 49; 32; 50; 53; 53; 10; 1; 2; 3; 4; 5; 6]%Z.

(** "P5 1 1 255\n" and "X6 1 1 255\n", each followed by 3 pixel bytes:
    files whose magic number is not "P6". *)
Definition p5_image : Uint8Array :=
  bytes_of [80; 53; 32; 49; 32; 49; 32; 50; 53; 53; 10; 0; 0; 0]%Z.
Definition x6_image : Uint8Array :=
  bytes_of [88; 54; 32; 49; 32; 49; 32; 50; 53; 53; 10; 0; 0; 0]%Z.

(** "P61 1 255\n" followed by 3 pixel bytes: a 1x1 image in 13 bytes. *)
Definition smallest_image : Uint8Array :=
  bytes_of [80; 54; 49; 32; 49; 32; 50; 53; 53; 10; 9; 9; 9]%Z.

(** [plain_image] parsed into an empty heap, and the heap and image that
    hiding 'Hi' in it produces. *)
Definition plain_heap : heap := [header_4x4; replicate 48 (ToUint8 7)].
Definition plain_ppm : Ppm := mkPpm 4 4 255 0 1.
Definition hidden_heap : heap :=
  plain_heap ++
    [header_4x4; embed (payload_bits [72; 105]%Z) 0 (replicate 48 (ToUint8 7))].
Definition hidden_ppm : Ppm := mkPpm 4 4 255 2 3.

(** [tiny_image] parsed into an empty heap. *)
Definition tiny_heap : heap :=
  [bytes_of [80; 54; 32; 50; 32; 49; 32; 50; 53; 53; 10]%Z;
   bytes_of [1; 2; 3; 4; 5; 6]%Z].
Definition tiny_ppm : Ppm := mkPpm 2 1 255 0 1.

(** [zero_image] parsed into an empty heap. *)
Definition zero_heap : heap := [header_4x4; replicate 48 Byte.x00].

(** The image with 'Hi' hidden, after the last of the 8 pixel bytes that
    encode the terminator was overwritten with 1. *)
Definition clobbered_heap : heap := heap_store hidden_heap 3 47 1.

(** * Properties *)

(** ** The concrete images parse as expected *)

Lemma parse_plain_image : Ppm_parse [] plain_image = (plain_heap, PpmOk plain_ppm).
Proof. reflexivity. Qed.

Lemma parse_zero_image : Ppm_parse [] zero_image = (zero_heap, PpmOk plain_ppm).
Proof. reflexivity. Qed.

Lemma parse_tiny_image : Ppm_parse [] tiny_image = (tiny_heap, PpmOk tiny_ppm).
Proof. reflexivity. Qed.

Lemma hide_plain_image :
  hide plain_heap (mkSteg "in" plain_ppm) [72; 105]%Z
    = Some (hidden_heap, HidePpm hidden_ppm).
Proof. vm_compute. reflexivity. Qed.

Lemma parse_stego_image :
  Ppm_parse [] stego_image
    = ([header_4x4; heap_get hidden_heap 3], PpmOk plain_ppm).
Proof. vm_compute. reflexivity. Qed.

(** ** Bytes *)

Lemma u8_range b : (0 <= u8 b < 256)%Z.
Proof. unfold u8. pose proof (Byte.to_N_bounded b). lia. Qed.

Lemma ToUint8_u8 b : ToUint8 (u8 b) = b.
Proof.
  unfold ToUint8. rewrite Z.mod_small by apply u8_range.
  unfold u8. rewrite N2Z.id, Byte.of_to_N. reflexivity.
Qed.

Lemma lsb_set_lsb (bit : bool) b :
  negb (Z.land (u8 (ToUint8 (if bit then Z.lor (u8 b) 1
                             else Z.land (u8 b) (Z.lnot 1)))) 1 =? 0)%Z = bit.
Proof. destruct bit, b; reflexivity. Qed.

Lemma upper_set_lsb (bit : bool) b :
  Z.shiftr (u8 (ToUint8 (if bit then Z.lor (u8 b) 1
                         else Z.land (u8 b) (Z.lnot 1)))) 1 = Z.shiftr (u8 b) 1.
Proof. destruct bit, b; reflexivity. Qed.

(** ** Writing low bits into an array *)

Lemma set_lsb_at_length bit i a : length (set_lsb_at bit i a) = length a.
Proof. apply length_insert. Qed.

Lemma set_lsb_at_lookup_ne bit i j a : i ≠ j → set_lsb_at bit i a !! j = a !! j.
Proof. intros. unfold set_lsb_at. by rewrite list_lookup_insert_ne. Qed.

Lemma set_lsb_at_lsb bit i a : i < length a → lsb_at (set_lsb_at bit i a) i = bit.
Proof.
  intros Hi. destruct (lookup_lt_is_Some_2 a i Hi) as [b Hb].
  unfold lsb_at, set_lsb_at, load.
  rewrite list_lookup_insert_eq by done. rewrite Hb. simpl.
  apply lsb_set_lsb.
Qed.

Lemma set_lsb_at_upper bit i j a :
  Z.shiftr (load (set_lsb_at bit i a) j) 1 = Z.shiftr (load a j) 1.
Proof.
  destruct (decide (i = j)) as [<-|Hne].
  - unfold set_lsb_at, load. destruct (a !! i) as [b|] eqn:Hb.
    + rewrite list_lookup_insert_eq by (by eapply lookup_lt_Some).
      simpl. apply upper_set_lsb.
    + rewrite list_insert_ge by (by apply lookup_ge_None). by rewrite Hb.
  - unfold load. by rewrite set_lsb_at_lookup_ne.
Qed.

Lemma embed_length bits : ∀ i a, length (embed bits i a) = length a.
Proof.
  induction bits as [|bit bits IH]; intros i a; simpl; [done|].
  by rewrite IH, set_lsb_at_length.
Qed.

Lemma embed_lookup_lt bits : ∀ i a j, j < i → embed bits i a !! j = a !! j.
Proof.
  induction bits as [|bit bits IH]; intros i a j Hj; simpl; [done|].
  rewrite IH by lia. apply set_lsb_at_lookup_ne. lia.
Qed.

Lemma embed_lookup_ge bits :
  ∀ i a j, i + length bits ≤ j → embed bits i a !! j = a !! j.
Proof.
  induction bits as [|bit bits IH]; intros i a j Hj; simpl in *; [done|].
  rewrite IH by lia. apply set_lsb_at_lookup_ne. lia.
Qed.

Lemma lsb_at_ext a a' i : a !! i = a' !! i → lsb_at a i = lsb_at a' i.
Proof. unfold lsb_at, load. by intros ->. Qed.

Lemma embed_lsb bits :
  ∀ i a k bit, bits !! k = Some bit → i + k < length a →
    lsb_at (embed bits i a) (i + k) = bit.
Proof.
  induction bits as [|b bits IH]; intros i a k bit Hk Hlen; [done|].
  destruct k as [|k]; simpl in *.
  - injection Hk as ->. rewrite Nat.add_0_r in *.
    rewrite (lsb_at_ext _ (set_lsb_at bit i a)) by (apply embed_lookup_lt; lia).
    by apply set_lsb_at_lsb.
  - replace (i + S k) with (S i + k) by lia.
    apply IH; [done|]. rewrite set_lsb_at_length. lia.
Qed.

Lemma embed_upper bits :
  ∀ i a j, Z.shiftr (load (embed bits i a) j) 1 = Z.shiftr (load a j) 1.
Proof.
  induction bits as [|b bits IH]; intros i a j; simpl; [done|].
  by rewrite IH, set_lsb_at_upper.
Qed.

Lemma embed_app bits1 : ∀ bits2 i a,
  embed (bits1 ++ bits2) i a = embed bits2 (i + length bits1) (embed bits1 i a).
Proof.
  induction bits1 as [|b bits1 IH]; intros bits2 i a; simpl.
  - by rewrite Nat.add_0_r.
  - rewrite IH. f_equal. lia.
Qed.

(** ** The loops of [hide] write [embed] *)

Lemma heap_store_lookup (h : heap) l a i v :
  h !! l = Some a → heap_store h l i v = <[l := <[i := ToUint8 v]> a]> h.
Proof. intros H. unfold heap_store. by rewrite H. Qed.

Lemma hide_bits_embed fuel : ∀ (h : heap) l a i c mask,
  h !! l = Some a →
  hide_bits fuel h l i c mask =
    (fun bits => (<[l := embed bits i a]> h, i + length bits))
      <$> mask_bits fuel c mask.
Proof.
  induction fuel as [|fuel IH]; intros h l a i c mask Hl; simpl.
  - destruct (mask =? 0)%Z; simpl; [|done].
    by rewrite list_insert_id, Nat.add_0_r.
  - destruct (mask =? 0)%Z; simpl.
    { by rewrite list_insert_id, Nat.add_0_r. }
    assert (Hlt : l < length h) by (by eapply lookup_lt_Some).
    set (bit := negb (Z.land c mask =? 0)%Z).
    assert (Hst : (if (Z.land c mask =? 0)%Z
                   then heap_store h l i (Z.land (heap_load h l i) (Z.lnot 1))
                   else heap_store h l i (Z.lor (heap_load h l i) 1))
                  = <[l := set_lsb_at bit i a]> h).
    { unfold bit, set_lsb_at, heap_load, heap_get. rewrite Hl. simpl.
      destruct (Z.land c mask =? 0)%Z; simpl; by apply heap_store_lookup. }
    rewrite Hst.
    rewrite (IH _ l (set_lsb_at bit i a)) by (by apply list_lookup_insert_eq).
    destruct (mask_bits fuel c (Z.shiftr mask 1)) as [bits|]; simpl; [|done].
    rewrite list_insert_insert_eq. do 2 f_equal. lia.
Qed.

Lemma mask_bits_char c :
  mask_bits CHAR_BIT c (Z.shiftl 1 (Z.of_nat (CHAR_BIT - 1))) = Some (bits8 c).
Proof. reflexivity. Qed.

Lemma bits8_length c : length (bits8 c) = 8.
Proof. reflexivity. Qed.

Lemma hide_chars_embed codes : ∀ (h : heap) l a i,
  h !! l = Some a →
  hide_chars codes h l i =
    Some (<[l := embed (concat (map bits8 codes)) i a]> h, i + 8 * length codes).
Proof.
  induction codes as [|c codes IH]; intros h l a i Hl;
    cbn [hide_chars concat map length].
  - simpl. by rewrite list_insert_id, Nat.add_0_r.
  - rewrite (hide_bits_embed _ _ _ a) by done.
    rewrite mask_bits_char. cbn [fmap option_fmap option_map mbind option_bind].
    assert (Hlt : l < length h) by (by eapply lookup_lt_Some).
    rewrite (IH _ l (embed (bits8 c) i a)) by (by apply list_lookup_insert_eq).
    rewrite list_insert_insert_eq, (embed_app (bits8 c)), bits8_length.
    do 2 f_equal. lia.
Qed.

(** ** The loops of [unhideLo] replay [scan] on the decoded groups *)

Lemma unhideLo_bits_run bytes maxOffset n : ∀ fuel i mask cc reads,
  n ≤ fuel → i + n ≤ maxOffset →
  (∀ k, k < n → Z.shiftr mask (Z.of_nat k) ≠ 0%Z) →
  Z.shiftr mask (Z.of_nat n) = 0%Z →
  unhideLo_bits fuel bytes maxOffset i mask cc reads =
    Some (i + n, 0%Z, read_bits n bytes i mask cc, reads ++ seq i n).
Proof.
  induction n as [|n IH]; intros fuel i mask cc reads Hfuel Hi Hnz Hz.
  - rewrite Z.shiftr_0_r in Hz. subst mask.
    destruct fuel; simpl; by rewrite Nat.add_0_r, app_nil_r.
  - destruct fuel as [|fuel]; [lia|].
    assert (Hm : mask ≠ 0%Z).
    { specialize (Hnz 0 ltac:(lia)). by rewrite Z.shiftr_0_r in Hnz. }
    cbn [unhideLo_bits read_bits].
    apply Z.eqb_neq in Hm. rewrite Hm.
    assert (Hlt : (i <? maxOffset) = true) by (apply Nat.ltb_lt; lia).
    rewrite Hlt. cbn [negb andb]. fold (lsb_at bytes i).
    rewrite (IH fuel (S i) (Z.shiftr mask 1)); try lia.
    + replace (S i + n) with (i + S n) by lia.
      by rewrite <- app_assoc.
    + intros k Hk. rewrite Z.shiftr_shiftr by lia.
      replace (1 + Z.of_nat k)%Z with (Z.of_nat (S k)) by lia.
      apply Hnz. lia.
    + rewrite Z.shiftr_shiftr by lia.
      by replace (1 + Z.of_nat n)%Z with (Z.of_nat (S n)) by lia.
Qed.

Lemma unhideLo_bits_group bytes maxOffset i reads :
  i + 8 ≤ maxOffset →
  unhideLo_bits CHAR_BIT bytes maxOffset i
      (Z.shiftl 1 (Z.of_nat (CHAR_BIT - 1))) 0 reads =
    Some (i + 8, 0%Z, group_value bytes i, reads ++ seq i 8).
Proof.
  intros Hi. apply unhideLo_bits_run; [done|done| |done].
  intros k Hk. do 8 (destruct k as [|k]; [done|]). lia.
Qed.

Lemma groups_cons bytes g n :
  groups bytes g (S n) = group_value bytes (8 * g) :: groups bytes (S g) n.
Proof. reflexivity. Qed.

Lemma unhideLo_chars_scan bytes cap msgLen g0 reads0 fuel :
  ∀ k msg cc mask,
    cap - (g0 + k) ≤ fuel →
    unhideLo_chars fuel bytes (8 * cap) msgLen (8 * (g0 + k)) msg cc mask
        (reads0 ++ seq (8 * g0) (8 * k)) =
      let '(msg', cc', mask', k') :=
        scan (groups bytes (g0 + k) (cap - (g0 + k))) msgLen msg cc mask k in
      Some (msg', cc', mask', reads0 ++ seq (8 * g0) (8 * k')).
Proof.
  induction fuel as [|fuel IH]; intros k msg cc mask Hfuel.
  - replace (cap - (g0 + k)) with 0 by lia.
    assert (Hge : (8 * (g0 + k) <? 8 * cap) = false) by (apply Nat.ltb_ge; lia).
    cbn [unhideLo_chars]. by rewrite Hge.
  - destruct (decide (g0 + k < cap)) as [Hlt|Hge].
    + assert (Hlt' : (8 * (g0 + k) <? 8 * cap) = true) by (apply Nat.ltb_lt; lia).
      cbn [unhideLo_chars]. rewrite Hlt'.
      rewrite unhideLo_bits_group by lia.
      replace (cap - (g0 + k)) with (S (cap - (g0 + S k))) by lia.
      rewrite groups_cons. cbn [scan].
      assert (Hreads : (reads0 ++ seq (8 * g0) (8 * k)) ++ seq (8 * (g0 + k)) 8
                       = reads0 ++ seq (8 * g0) (8 * S k)).
      { rewrite <- app_assoc. f_equal.
        replace (8 * S k) with (8 * k + 8) by lia.
        rewrite seq_app. do 2 f_equal. lia. }
      rewrite Hreads.
      destruct (group_value bytes (8 * (g0 + k)) =? 0)%Z; [done|].
      destruct ((msgLen >? 0)%Z &&
                (Z.of_nat (length (msg ++ [group_value bytes (8 * (g0 + k))]))
                 >=? msgLen)%Z); [done|].
      replace (8 * (g0 + k) + 8) with (8 * (g0 + S k)) by lia.
      replace (S (g0 + k)) with (g0 + S k) by lia.
      apply IH. lia.
    + replace (cap - (g0 + k)) with 0 by lia.
      assert (Hge' : (8 * (g0 + k) <? 8 * cap) = false) by (apply Nat.ltb_ge; lia).
      cbn [unhideLo_chars]. by rewrite Hge'.
Qed.

Lemma unhideLo_scan bytes off msgLen :
  unhideLo bytes off msgLen =
    let '(msg, cc, mask, k) :=
      scan (groups bytes off (length bytes / 8 - off)) msgLen [] None None 0 in
    Some (if (msgLen <? 0)%Z && (strict_ne_zero mask || strict_ne_zero cc)
          then JsUndefined else JsStr msg,
          seq (8 * off) (8 * k)).
Proof.
  unfold unhideLo.
  replace (length bytes / 8 * 8) with (8 * (length bytes / 8)) by lia.
  replace (off * CHAR_BIT) with (8 * (off + 0)) by (unfold CHAR_BIT; lia).
  pose proof (unhideLo_chars_scan bytes (length bytes / 8) msgLen off []
                (length bytes) 0 [] None None) as H.
  rewrite Nat.mul_0_r in H. cbn [app seq] in H. rewrite H; clear H.
  - rewrite Nat.add_0_r.
    destruct (scan _ _ _ _ _ _) as [[[msg cc] mask] k].
    cbn [mbind option_bind].
    by destruct ((msgLen <? 0)%Z && (strict_ne_zero mask || strict_ne_zero cc)).
  - pose proof (Nat.Div0.div_le_upper_bound (length bytes) 8 (length bytes)).
    lia.
Qed.

(** ** Decoding a group of 8 pixel bytes *)

Lemma read_bits_value bytes n : ∀ i mask cc,
  read_bits n bytes i mask cc = bits_value (map (lsb_at bytes) (seq i n)) mask cc.
Proof. induction n as [|n IH]; intros i mask cc; simpl; [done|]. apply IH. Qed.

Lemma group_value_bits bytes i :
  group_value bytes i = bits_value (map (lsb_at bytes) (seq i 8)) 128 0.
Proof. apply read_bits_value. Qed.

Lemma lsb_at_seq bytes i (bits : list bool) :
  (∀ k bit, bits !! k = Some bit → lsb_at bytes (i + k) = bit) →
  map (lsb_at bytes) (seq i (length bits)) = bits.
Proof.
  intros H. apply list_eq. intros k.
  change (map (lsb_at bytes)) with (fmap (M:=list) (lsb_at bytes)).
  rewrite list_lookup_fmap.
  destruct (bits !! k) as [bit|] eqn:Hk.
  - rewrite lookup_seq_lt by (by eapply lookup_lt_Some). simpl.
    f_equal. by apply H.
  - rewrite lookup_seq_ge; [done|]. by apply lookup_ge_None.
Qed.

Lemma group_value_ext a a' i :
  (∀ k, k < 8 → a !! (i + k) = a' !! (i + k)) →
  group_value a i = group_value a' i.
Proof.
  intros H. rewrite !group_value_bits. f_equal.
  apply list_eq. intros k.
  change (map (lsb_at a)) with (fmap (M:=list) (lsb_at a)).
  change (map (lsb_at a')) with (fmap (M:=list) (lsb_at a')).
  rewrite !list_lookup_fmap.
  destruct (decide (k < 8)) as [Hk|Hk].
  - rewrite lookup_seq_lt by done. simpl. f_equal. apply lsb_at_ext. by apply H.
  - rewrite lookup_seq_ge by lia. done.
Qed.

Lemma forall_below_256 (P : Z → bool) :
  forallb P (map Z.of_nat (seq 0 256)) = true →
  ∀ c, (0 <= c < 256)%Z → P c = true.
Proof.
  intros H c Hc. rewrite forallb_forall in H. apply H.
  apply in_map_iff. exists (Z.to_nat c). split; [lia|]. apply in_seq. lia.
Qed.

Lemma low8_range c : (0 <= low8 c < 256)%Z.
Proof.
  unfold low8. change 255%Z with (Z.ones 8). rewrite Z.land_ones by lia.
  apply Z.mod_pos_bound. lia.
Qed.

Lemma low8_small c : (0 <= c < 256)%Z → low8 c = c.
Proof.
  intros H. unfold low8. change 255%Z with (Z.ones 8).
  rewrite Z.land_ones by lia. apply Z.mod_small. simpl. lia.
Qed.

Lemma bits8_low8 c : bits8 (low8 c) = bits8 c.
Proof.
  unfold bits8, low8. cbn [map]. rewrite <- !Z.land_assoc. reflexivity.
Qed.

Lemma bits_value_bits8 c : bits_value (bits8 c) 128 0 = low8 c.
Proof.
  rewrite <- bits8_low8.
  pose proof (forall_below_256
    (fun c => (bits_value (bits8 c) 128 0 =? c)%Z) eq_refl (low8 c) (low8_range c)).
  by apply Z.eqb_eq.
Qed.

Lemma group_value_bits8 bytes i c :
  (∀ k bit, bits8 c !! k = Some bit → lsb_at bytes (i + k) = bit) →
  group_value bytes i = low8 c.
Proof.
  intros H. rewrite group_value_bits, <- (bits8_length c).
  rewrite (lsb_at_seq _ _ (bits8 c)) by done. apply bits_value_bits8.
Qed.

(** ** The groups of an array into which char codes were embedded *)

Lemma embed_codes_group codes : ∀ i a g c,
  i + 8 * length codes ≤ length a → codes !! g = Some c →
  group_value (embed (concat (map bits8 codes)) i a) (i + 8 * g) = low8 c.
Proof.
  induction codes as [|c0 codes IH]; intros i a g c Hlen Hg; [done|].
  cbn [map concat length] in *.
  rewrite embed_app, bits8_length.
  destruct g as [|g].
  - injection Hg as ->. rewrite Nat.mul_0_r, Nat.add_0_r.
    apply group_value_bits8. intros k bit Hk.
    assert (k < 8) by (rewrite <- (bits8_length c); by eapply lookup_lt_Some).
    rewrite (lsb_at_ext _ (embed (bits8 c) i a)) by (apply embed_lookup_lt; lia).
    apply embed_lsb; [done|lia].
  - replace (i + 8 * S g) with (i + 8 + 8 * g) by lia.
    apply IH; [|done]. rewrite embed_length. lia.
Qed.

Lemma embed_group_ge bits i a j :
  i + length bits ≤ j → group_value (embed bits i a) j = group_value a j.
Proof.
  intros Hj. apply group_value_ext. intros k _. apply embed_lookup_ge. lia.
Qed.

Lemma length_bits_codes codes : length (concat (map bits8 codes)) = 8 * length codes.
Proof.
  induction codes as [|c codes IH]; [done|].
  cbn [map concat length]. rewrite length_app, IH, bits8_length. lia.
Qed.

Lemma groups_app bytes g n m :
  groups bytes g (n + m) = groups bytes g n ++ groups bytes (g + n) m.
Proof. unfold groups. by rewrite seq_app, map_app. Qed.

Lemma groups_length bytes g n : length (groups bytes g n) = n.
Proof. unfold groups. by rewrite length_map, length_seq. Qed.

Lemma groups_embed codes a n :
  8 * length codes ≤ length a → length codes ≤ n →
  groups (embed (concat (map bits8 codes)) 0 a) 0 n =
    map low8 codes ++ groups a (length codes) (n - length codes).
Proof.
  intros Hlen Hn.
  replace n with (length codes + (n - length codes)) at 1 by lia.
  rewrite groups_app. f_equal.
  - apply list_eq. intros g. unfold groups.
    change (map ?f) with (fmap (M:=list) f). rewrite !list_lookup_fmap.
    destruct (codes !! g) as [c|] eqn:Hg.
    + rewrite lookup_seq_lt by (by eapply lookup_lt_Some). simpl. f_equal.
      by apply (embed_codes_group codes 0 a g c).
    + rewrite lookup_seq_ge; [done|]. by apply lookup_ge_None.
  - unfold groups. apply map_ext_in. intros j Hj. apply in_seq in Hj.
    apply embed_group_ge. rewrite length_bits_codes. lia.
Qed.

Lemma groups_drop bytes off n :
  groups bytes off (n - off) = drop off (groups bytes 0 n).
Proof.
  unfold groups. change (map ?f) with (fmap (M:=list) f).
  by rewrite <- fmap_drop, drop_seq.
Qed.

(** ** Char codes of a string *)

Lemma charCodes_length_le s : length (charCodes s) ≤ length s.
Proof.
  induction s as [s IH] using (induction_ltof1 _ (@length Z)). unfold ltof in IH.
  destruct s as [|c [|d rest]]; simpl; [lia|lia|].
  destruct (is_high_surrogate c && is_low_surrogate d).
  - specialize (IH rest ltac:(simpl; lia)). simpl in *. lia.
  - specialize (IH (d :: rest) ltac:(simpl; lia)). simpl in *. lia.
Qed.

Lemma charCodes_cons2 c d rest :
  charCodes (c :: d :: rest) =
    c :: (if is_high_surrogate c && is_low_surrogate d
          then charCodes rest else charCodes (d :: rest)).
Proof. reflexivity. Qed.

Lemma charCodes_snoc_zero s : charCodes (s ++ [0%Z]) = charCodes s ++ [0%Z].
Proof.
  induction s as [s IH] using (induction_ltof1 _ (@length Z)). unfold ltof in IH.
  destruct s as [|c [|d rest]]; [done| |].
  - simpl. by rewrite andb_false_r.
  - change ((c :: d :: rest) ++ [0%Z]) with (c :: d :: (rest ++ [0%Z])).
    rewrite !charCodes_cons2.
    destruct (is_high_surrogate c && is_low_surrogate d).
    + rewrite (IH rest) by (simpl; lia). done.
    + change (d :: rest ++ [0%Z]) with ((d :: rest) ++ [0%Z]).
      rewrite (IH (d :: rest)) by (simpl; lia). done.
Qed.

Lemma charCodes_bytes s :
  Forall (fun c => 0 <= c <= 255)%Z s → charCodes s = s.
Proof.
  induction 1 as [|c s Hc Hs IH]; [done|].
  cbn [charCodes]. destruct s as [|d rest]; [done|].
  replace (is_high_surrogate c) with false; [by rewrite IH|].
  unfold is_high_surrogate. symmetry. apply andb_false_iff. left.
  apply Z.leb_gt. lia.
Qed.

Lemma charCodes_magic s : charCodes (STEG_MAGIC ++ s) = STEG_MAGIC ++ charCodes s.
Proof. destruct s as [|d rest]; reflexivity. Qed.

Lemma charCodes_magicMsg msg :
  charCodes (STEG_MAGIC ++ msg ++ [0%Z]) = STEG_MAGIC ++ charCodes msg ++ [0%Z].
Proof. by rewrite charCodes_magic, charCodes_snoc_zero. Qed.

(** ** The scan over decoded values *)

Lemma gtb_nonpos m : (m <= 0)%Z → (m >? 0)%Z = false.
Proof. intros. rewrite Z.gtb_ltb. apply Z.ltb_ge. lia. Qed.

Lemma gtb_pos m : (0 < m)%Z → (m >? 0)%Z = true.
Proof. intros. rewrite Z.gtb_ltb. apply Z.ltb_lt. lia. Qed.

Lemma scan_bounds vals : ∀ msgLen msg cc mask k msg' cc' mask' k',
  scan vals msgLen msg cc mask k = (msg', cc', mask', k') →
  k ≤ k' ≤ k + length vals ∧ length msg' ≤ length msg + (k' - k).
Proof.
  induction vals as [|v vals IH]; intros msgLen msg cc mask k msg' cc' mask' k' H;
    cbn [scan] in H.
  - injection H as <- <- <- <-. simpl. lia.
  - destruct (v =? 0)%Z.
    { injection H as <- <- <- <-. simpl. lia. }
    destruct ((msgLen >? 0)%Z && (Z.of_nat (length (msg ++ [v])) >=? msgLen)%Z).
    { injection H as <- <- <- <-. rewrite length_app. simpl. lia. }
    apply IH in H. rewrite length_app in H. simpl in *. lia.
Qed.

Lemma scan_stop_at_zero nz : ∀ rest msgLen msg cc mask k,
  (msgLen <= 0)%Z → Forall (fun v => v ≠ 0%Z) nz →
  scan (nz ++ 0%Z :: rest) msgLen msg cc mask k =
    (msg ++ nz, Some 0%Z, Some 0%Z, S (k + length nz)).
Proof.
  induction nz as [|v nz IH]; intros rest msgLen msg cc mask k Hm Hnz.
  - simpl. by rewrite app_nil_r, Nat.add_0_r.
  - inversion_clear Hnz as [|? ? Hv Hnz'].
    cbn [app scan]. apply Z.eqb_neq in Hv. rewrite Hv.
    rewrite (gtb_nonpos msgLen) by done.
    cbn [andb]. rewrite IH by done.
    rewrite <- app_assoc. simpl. do 2 f_equal. lia.
Qed.

Lemma scan_exhausted vals : ∀ msgLen msg cc mask k,
  (msgLen <= 0)%Z → Forall (fun v => v ≠ 0%Z) vals →
  strict_ne_zero mask || strict_ne_zero cc = true →
  ∃ cc' mask' k',
    scan vals msgLen msg cc mask k = (msg ++ vals, cc', mask', k') ∧
    strict_ne_zero mask' || strict_ne_zero cc' = true.
Proof.
  induction vals as [|v vals IH]; intros msgLen msg cc mask k Hm Hnz Hst.
  - exists cc, mask, k. by rewrite app_nil_r.
  - inversion_clear Hnz as [|? ? Hv Hnz'].
    cbn [scan]. apply Z.eqb_neq in Hv. rewrite Hv.
    rewrite (gtb_nonpos msgLen) by done.
    cbn [andb].
    destruct (IH msgLen (msg ++ [v]) (Some v) (Some 0%Z) (S k) Hm Hnz')
      as (cc' & mask' & k' & Heq & Hst').
    { simpl. by rewrite Hv. }
    exists cc', mask', k'. by rewrite Heq, <- app_assoc.
Qed.

Lemma scan_bounded vals : ∀ m msg cc mask k,
  (Z.of_nat (length msg) < m)%Z →
  ∃ cc' mask' k',
    scan vals m msg cc mask k =
      (msg ++ take (Z.to_nat m - length msg) (nonzero_prefix vals), cc', mask', k').
Proof.
  induction vals as [|v vals IH]; intros m msg cc mask k Hlen.
  - exists cc, mask, k. simpl. by rewrite take_nil, app_nil_r.
  - cbn [scan nonzero_prefix]. destruct (v =? 0)%Z.
    { do 3 eexists. by rewrite take_nil, app_nil_r. }
    rewrite (gtb_pos m) by lia.
    cbn [andb]. rewrite length_app. cbn [length].
    destruct (Z.of_nat (length msg + 1) >=? m)%Z eqn:Hge.
    + do 3 eexists. f_equal. f_equal. f_equal.
      apply Z.geb_le in Hge.
      replace (Z.to_nat m - length msg) with 1 by lia. cbn [take].
      by rewrite take_0.
    + rewrite Z.geb_leb in Hge. apply Z.leb_gt in Hge.
      destruct (IH m (msg ++ [v]) (Some v) (Some 0%Z) (S k)) as (cc' & mask' & k' & Heq).
      { rewrite length_app. simpl. lia. }
      exists cc', mask', k'. rewrite Heq, <- app_assoc, length_app. simpl.
      do 3 f_equal.
      replace (Z.to_nat m - length msg) with (S (Z.to_nat m - (length msg + 1))) by lia.
      done.
Qed.

Lemma nonzero_prefix_nonzero l : Forall (fun v => v ≠ 0%Z) (nonzero_prefix l).
Proof.
  induction l as [|v l IH]; simpl; [done|].
  destruct (v =? 0)%Z eqn:Hv; [done|]. apply Z.eqb_neq in Hv. by constructor.
Qed.

Lemma nonzero_prefix_split l rest :
  ∃ rest', l ++ 0%Z :: rest = nonzero_prefix l ++ 0%Z :: rest'.
Proof.
  induction l as [|v l IH]; simpl; [by exists rest|].
  destruct (v =? 0)%Z eqn:Hv.
  - apply Z.eqb_eq in Hv. subst v. by exists (l ++ 0%Z :: rest).
  - destruct IH as [rest' ->]. by exists rest'.
Qed.

Lemma nonzero_prefix_id l : Forall (fun v => v ≠ 0%Z) l → nonzero_prefix l = l.
Proof.
  induction 1 as [|v l Hv Hl IH]; simpl; [done|].
  apply Z.eqb_neq in Hv. by rewrite Hv, IH.
Qed.

(** ** The capacity test *)

(** Facts relating [L / 8] and [L mod 8] to [L], for [lia]. *)
Ltac div8 L :=
  pose proof (Nat.div_mod_eq L 8); pose proof (Nat.mod_upper_bound L 8).

Lemma too_big_spec n L :
  too_big n L = true ↔ capacityBytes L < STEG_MAGIC_LEN + n + 1.
Proof.
  unfold too_big, capacityBytes, Qle_bool, STEG_MAGIC_LEN.
  cbn [Qnum Qden inject_Z CHAR_BIT Pos.of_nat Pos.succ length STEG_MAGIC].
  rewrite negb_true_iff, Z.leb_gt.
  change (Z.pos (Pos.of_nat CHAR_BIT)) with 8%Z.
  div8 L.
  lia.
Qed.

Lemma too_big_false n L :
  too_big n L = false ↔ 8 * (STEG_MAGIC_LEN + n + 1) ≤ L.
Proof.
  destruct (too_big n L) eqn:H.
  - apply too_big_spec in H. unfold capacityBytes in H. split; [done|].
    div8 L. lia.
  - split; [intros _|done].
    assert (Hn : ¬ capacityBytes L < STEG_MAGIC_LEN + n + 1).
    { intros Hlt. apply too_big_spec in Hlt. congruence. }
    unfold capacityBytes in Hn.
    div8 L. lia.
Qed.

(** ** [checkMagic], [hide] and [unhide] in terms of [scan] and [embed] *)

Lemma checkMagic_scan h this :
  checkMagic h this =
    let pix := heap_get h (pixelBytes (ppm this)) in
    let '(msg, cc, mask, k) :=
      scan (groups pix 0 (length pix / 8)) 3 [] None None 0 in
    Some (bool_decide (msg = STEG_MAGIC), seq 0 (8 * k)).
Proof.
  unfold checkMagic. rewrite unhideLo_scan. cbn zeta.
  rewrite Nat.sub_0_r. change (Z.of_nat STEG_MAGIC_LEN) with 3%Z.
  by destruct (scan _ _ _ _ _ _) as [[[msg cc] mask] k].
Qed.

Lemma checkMagic_total h this : ∃ magic reads, checkMagic h this = Some (magic, reads).
Proof.
  rewrite checkMagic_scan. cbn zeta.
  destruct (scan _ _ _ _ _ _) as [[[msg cc] mask] k]. eauto.
Qed.

Lemma hide_spec h this msg :
  let p := ppm this in
  let pix := heap_get h (pixelBytes p) in
  ∃ magic reads, checkMagic h this = Some (magic, reads) ∧
    hide h this msg =
      Some (if magic then (h, HideError (STEG_MSG (id this)))
            else if too_big (length msg) (length pix)
            then (h, HideError (STEG_TOO_BIG (id this)))
            else (h ++ [heap_get h (hdrBytes p); embed (payload_bits msg) 0 pix],
                  HidePpm (mkPpm (width p) (height p) (maxColors p)
                             (length h) (S (length h))))).
Proof.
  intros p pix. destruct (checkMagic_total h this) as (magic & reads & Hm).
  exists magic, reads. split; [done|].
  unfold hide. rewrite Hm. cbn [mbind option_bind].
  destruct magic; [done|]. fold p. fold pix.
  destruct (too_big (length msg) (length pix)) eqn:Hbig; [done|].
  apply too_big_false in Hbig.
  assert (Hpix : h !! pixelBytes p = Some pix).
  { subst pix. unfold heap_get in *.
    destruct (h !! pixelBytes p); [done|]. simpl in Hbig. lia. }
  unfold Ppm_copy, heap_alloc. fold p.
  assert (Hget : heap_get (h ++ [heap_get h (hdrBytes p)]) (pixelBytes p) = pix).
  { unfold heap_get at 1. rewrite lookup_app_l by (by eapply lookup_lt_Some).
    by rewrite Hpix. }
  rewrite Hget. cbn [pixelBytes].
  set (hdr := heap_get h (hdrBytes p)).
  assert (Hl : length (h ++ [hdr]) = length h + 1) by (by rewrite length_app).
  rewrite Hl, <- app_assoc. cbn [app].
  rewrite (hide_chars_embed _ _ _ pix).
  - cbn [mbind option_bind]. rewrite insert_app_r, Nat.add_1_r. done.
  - by rewrite lookup_app_r, Nat.add_comm, Nat.add_sub by lia.
Qed.

Lemma hide_total h this msg : ∃ h' r, hide h this msg = Some (h', r).
Proof.
  destruct (hide_spec h this msg) as (magic & reads & _ & ->).
  destruct magic; [eauto|]. destruct (too_big _ _); eauto.
Qed.

Lemma Some_pair_inv {A B} (a a' : A) (b b' : B) :
  Some (a, b) = Some (a', b') → a = a' ∧ b = b'.
Proof.
  intros H. split.
  - exact (f_equal (fun o => match o with Some (x, _) => x | None => a end) H).
  - exact (f_equal (fun o => match o with Some (_, y) => y | None => b end) H).
Qed.

Lemma HidePpm_inv p q : HidePpm p = HidePpm q → p = q.
Proof.
  intros H.
  exact (f_equal (fun r => match r with HidePpm x => x | HideError _ => p end) H).
Qed.

Lemma hide_ok_inv h this msg h' out :
  hide h this msg = Some (h', HidePpm out) →
  let p := ppm this in
  let pix := heap_get h (pixelBytes p) in
  (∃ reads, checkMagic h this = Some (false, reads)) ∧
  8 * (STEG_MAGIC_LEN + length msg + 1) ≤ length pix ∧
  pixelBytes p < length h ∧
  h' = h ++ [heap_get h (hdrBytes p); embed (payload_bits msg) 0 pix] ∧
  out = mkPpm (width p) (height p) (maxColors p) (length h) (S (length h)).
Proof.
  intros H p pix.
  destruct (hide_spec h this msg) as (magic & reads & Hm & Hh).
  rewrite Hh in H. fold p pix in H. destruct magic; [discriminate|].
  destruct (too_big (length msg) (length pix)) eqn:Hbig; [discriminate|].
  apply (proj1 (too_big_false _ _)) in Hbig.
  apply Some_pair_inv in H. destruct H as [<- H]. apply HidePpm_inv in H.
  subst out.
  split; [by exists reads|]. split; [exact Hbig|]. split; [|split; reflexivity].
  subst pix. unfold heap_get in Hbig.
  destruct (h !! pixelBytes p) eqn:Hp; [by eapply lookup_lt_Some|].
  cbn [default length] in Hbig. lia.
Qed.

Lemma heap_get_result (h : heap) hdr pix' :
  heap_get (h ++ [hdr; pix']) (S (length h)) = pix' ∧
  heap_get (h ++ [hdr; pix']) (length h) = hdr.
Proof.
  unfold heap_get. split.
  - replace (S (length h)) with (length h + 1) by lia.
    by rewrite lookup_app_r, Nat.add_comm, Nat.add_sub by lia.
  - by rewrite list_lookup_middle.
Qed.

(** ** The pixel bytes after a successful [hide] *)

Section hidden.

Variables (msg : jsstring) (pix : Uint8Array).

(** The capacity test of [hide] has passed. *)
Hypothesis Hfit : 8 * (STEG_MAGIC_LEN + length msg + 1) ≤ length pix.

Lemma hidden_groups :
  let n := length (charCodes msg) in
  groups (embed (payload_bits msg) 0 pix) 0 (length pix / 8) =
    STEG_MAGIC ++ map low8 (charCodes msg) ++
      0%Z :: groups pix (4 + n) (length pix / 8 - (4 + n)).
Proof.
  intros n. pose proof Hfit as Hlen.
  unfold payload_bits. rewrite charCodes_magicMsg.
  pose proof (charCodes_length_le msg) as Hle. fold n in Hle.
  assert (Hn : length (STEG_MAGIC ++ charCodes msg ++ [0%Z]) = 4 + n).
  { rewrite !length_app. simpl. fold n. lia. }
  unfold STEG_MAGIC_LEN in Hlen. simpl length in Hlen.
  div8 (length pix).
  rewrite groups_embed by (rewrite Hn; lia).
  rewrite Hn, !map_app. cbn [map]. rewrite <- !app_assoc. reflexivity.
Qed.

Lemma unhideLo_hidden :
  let nz := nonzero_prefix (map low8 (charCodes msg)) in
  unhideLo (embed (payload_bits msg) 0 pix) STEG_MAGIC_LEN (-1) =
    Some (JsStr nz, seq 24 (8 * S (length nz))).
Proof.
  intros nz. rewrite unhideLo_scan, embed_length, groups_drop.
  rewrite hidden_groups.
  change (drop STEG_MAGIC_LEN (STEG_MAGIC ++ ?l)) with l.
  destruct (nonzero_prefix_split (map low8 (charCodes msg))
              (groups pix (4 + length (charCodes msg))
                 (length pix / 8 - (4 + length (charCodes msg)))))
    as [rest' ->].
  fold nz. rewrite scan_stop_at_zero by (done || apply nonzero_prefix_nonzero).
  reflexivity.
Qed.

(** An image in the heap whose pixel bytes are those [hide] wrote. *)
Variables (h : heap) (this : StegModule).
Hypothesis Hget : heap_get h (pixelBytes (ppm this)) = embed (payload_bits msg) 0 pix.

Lemma checkMagic_hidden : checkMagic h this = Some (true, seq 0 24).
Proof.
  rewrite checkMagic_scan, Hget. cbn zeta.
  rewrite embed_length, hidden_groups. reflexivity.
Qed.

Lemma unhide_hidden :
  let nz := nonzero_prefix (map low8 (charCodes msg)) in
  unhide h this = Some (UnhideMsg nz, seq 0 24 ++ seq 24 (8 * S (length nz))).
Proof.
  intros nz. unfold unhide. rewrite checkMagic_hidden.
  cbn [mbind option_bind negb]. rewrite Hget, unhideLo_hidden. reflexivity.
Qed.

End hidden.

(** ** What [unhideLo] reads *)

Lemma unhideLo_reads bytes off msgLen :
  ∃ v reads, unhideLo bytes off msgLen = Some (v, reads) ∧
    Forall (fun i => i < length bytes / 8 * 8) reads.
Proof.
  rewrite unhideLo_scan.
  destruct (scan _ _ _ _ _ _) as [[[msg cc] mask] k] eqn:Hscan.
  apply scan_bounds in Hscan. rewrite groups_length in Hscan.
  do 2 eexists. split; [reflexivity|].
  apply Forall_seq. intros j Hj. lia.
Qed.

Lemma groups_ext a a' g n :
  (∀ i, 8 * g ≤ i < 8 * (g + n) → a' !! i = a !! i) →
  groups a' g n = groups a g n.
Proof.
  intros H. unfold groups. apply map_ext_in. intros j Hj. apply in_seq in Hj.
  apply group_value_ext. intros k Hk. apply H. lia.
Qed.

Lemma unhideLo_ext bytes bytes' off msgLen :
  length bytes' = length bytes →
  (∀ i, i < length bytes / 8 * 8 → bytes' !! i = bytes !! i) →
  unhideLo bytes' off msgLen = unhideLo bytes off msgLen.
Proof.
  intros Hlen H. rewrite !unhideLo_scan, Hlen.
  rewrite (groups_ext bytes bytes'); [done|].
  intros i Hi. apply H. lia.
Qed.

Lemma checkMagic_short h this :
  length (heap_get h (pixelBytes (ppm this))) < 24 →
  ∃ reads, checkMagic h this = Some (false, reads).
Proof.
  intros Hlen. rewrite checkMagic_scan. cbn zeta.
  destruct (scan _ _ _ _ _ _) as [[[msg cc] mask] k] eqn:Hscan.
  apply scan_bounds in Hscan. rewrite groups_length in Hscan.
  eexists. do 2 f_equal. apply bool_decide_eq_false. intros ->.
  pose proof (Nat.div_mod_eq (length (heap_get h (pixelBytes (ppm this)))) 8).
  cbn [length STEG_MAGIC] in Hscan. lia.
Qed.

(** ** Round trip *)

Lemma byte_message_recovered msg :
  byte_message msg → nonzero_prefix (map low8 (charCodes msg)) = msg.
Proof.
  intros Hb. rewrite charCodes_bytes by (eapply Forall_impl; [exact Hb|]; simpl; lia).
  assert (Hl : map low8 msg = msg).
  { induction Hb as [|c msg Hc Hb IH]; [done|]. simpl.
    rewrite IH, low8_small by lia. done. }
  rewrite Hl. apply nonzero_prefix_id.
  eapply Forall_impl; [exact Hb|]. simpl. lia.
Qed.

Lemma byte_message_charCodes msg : byte_message msg → charCodes msg = msg.
Proof.
  intros Hb. apply charCodes_bytes. eapply Forall_impl; [exact Hb|]. simpl. lia.
Qed.

Lemma byte_message_codes msg : byte_message msg → map low8 (charCodes msg) = msg.
Proof.
  intros Hb. rewrite byte_message_charCodes by done.
  induction Hb as [|c msg Hc Hb IH]; [done|]. simpl.
  rewrite IH, low8_small by lia. done.
Qed.

Lemma hide_unhide h this msg reads :
  checkMagic h this = Some (false, reads) →
  8 * (STEG_MAGIC_LEN + length msg + 1) ≤ length (heap_get h (pixelBytes (ppm this))) →
  ∃ h' out,
    hide h this msg = Some (h', HidePpm out) ∧
    ∀ sid, ∃ reads',
      unhide h' (mkSteg sid out) =
        Some (UnhideMsg (nonzero_prefix (map low8 (charCodes msg))), reads').
Proof.
  intros Hm Hlen.
  destruct (hide_spec h this msg) as (magic & reads0 & Hm' & Hh).
  rewrite Hm in Hm'. apply Some_pair_inv in Hm'. destruct Hm' as [<- _].
  apply too_big_false in Hlen. cbn zeta in Hh. rewrite Hlen in Hh.
  do 2 eexists. split; [exact Hh|]. intros sid.
  eexists. apply (unhide_hidden msg (heap_get h (pixelBytes (ppm this)))).
  - by apply too_big_false.
  - cbn [ppm pixelBytes]. apply heap_get_result.
Qed.

Lemma unhide_after_hide h this msg h' out sid :
  hide h this msg = Some (h', HidePpm out) →
  ∃ reads,
    unhide h' (mkSteg sid out) =
      Some (UnhideMsg (nonzero_prefix (map low8 (charCodes msg))), reads).
Proof.
  intros H. apply hide_ok_inv in H.
  destruct H as ([reads Hm] & Hlen & _ & Hh' & Hout).
  destruct (hide_unhide h this msg reads Hm Hlen) as (h2 & out2 & _ & Hu).
  eexists. apply (unhide_hidden msg (heap_get h (pixelBytes (ppm this))) Hlen).
  subst h' out. cbn [ppm pixelBytes]. apply heap_get_result.
Qed.

Lemma parse_ok_inv h0 b h p :
  Ppm_parse h0 b = (h, PpmOk p) →
  ∃ f, ppmFormat b = Some f ∧
    h = h0 ++ [take (f_pixelsIndex f) b; drop (f_pixelsIndex f) b] ∧
    p = mkPpm (f_width f) (f_height f) (f_maxColors f) (length h0) (S (length h0)).
Proof.
  unfold Ppm_parse. destruct (ppmFormat b) as [f|]; [|intros H; discriminate].
  unfold heap_alloc, slice. rewrite Nat.sub_0_r, drop_0, length_app. cbn [length].
  rewrite Nat.add_1_r, <- app_assoc. cbn [app].
  intros H. exists f. split; [done|].
  split.
  - exact (eq_sym (f_equal fst H)).
  - exact (eq_sym (f_equal (fun x => match snd x with PpmOk q => q | PpmError => p end) H)).
Qed.

(** C1 (as amended): for every image produced by a successful parse that
    carries no prior payload ([checkMagic] is false) and every message made
    of non-zero bytes whose length [n] satisfies
    [0 <= n <= capacityBytes(pixelBytes.length) - 4], [hide] succeeds and
    [unhide] on the resulting image returns exactly the message. *)
Theorem C1_hide_unhide_roundtrip h0 b h p sid msg reads :
  Ppm_parse h0 b = (h, PpmOk p) →
  checkMagic h (mkSteg sid p) = Some (false, reads) →
  byte_message msg →
  (Z.of_nat (length msg) <=
     Z.of_nat (capacityBytes (length (heap_get h (pixelBytes p)))) - 4)%Z →
  ∃ h' out,
    hide h (mkSteg sid p) msg = Some (h', HidePpm out) ∧
    ∀ sid', ∃ reads', unhide h' (mkSteg sid' out) = Some (UnhideMsg msg, reads').
Proof.
  intros _ Hm Hb Hn.
  assert (Hlen : 8 * (STEG_MAGIC_LEN + length msg + 1)
                 ≤ length (heap_get h (pixelBytes p))).
  { unfold capacityBytes, STEG_MAGIC_LEN in *. cbn [length STEG_MAGIC].
    pose proof (Nat.div_mod_eq (length (heap_get h (pixelBytes p))) 8).
    lia. }
  destruct (hide_unhide h (mkSteg sid p) msg reads Hm Hlen) as (h' & out & Hh & Hu).
  exists h', out. split; [done|]. intros sid'.
  destruct (Hu sid') as [reads' Hu']. exists reads'.
  by rewrite Hu', byte_message_recovered.
Qed.

Lemma C1_hide_unhide_roundtrip_witness :
  ∃ h p h' out,
    Ppm_parse [] plain_image = (h, PpmOk p) ∧
    hide h (mkSteg "in" p) [72; 105]%Z = Some (h', HidePpm out) ∧
    ∀ sid', ∃ reads',
      unhide h' (mkSteg sid' out) = Some (UnhideMsg [72; 105]%Z, reads').
Proof.
  destruct (C1_hide_unhide_roundtrip [] plain_image plain_heap plain_ppm
              "in" [72; 105]%Z (seq 0 24))
    as (h' & out & Hh & Hu).
  - reflexivity.
  - reflexivity.
  - repeat constructor; lia.
  - vm_compute. discriminate.
  - eauto 10.
Defined.

(** C1, counterexamples to the claim as stated: a message that contains a
    zero byte is cut at that byte, and an image file whose pixel bytes
    already start with the hidden prefix is refused by [hide]. *)
Lemma C1_counterexample :
  (∃ h p h' out reads,
     Ppm_parse [] plain_image = (h, PpmOk p) ∧
     (Z.of_nat (length [65; 0]%Z) <=
        Z.of_nat (capacityBytes (length (heap_get h (pixelBytes p)))) - 4)%Z ∧
     hide h (mkSteg "in" p) [65; 0]%Z = Some (h', HidePpm out) ∧
     unhide h' (mkSteg "out" out) = Some (UnhideMsg [65]%Z, reads) ∧
     [65]%Z ≠ [65; 0]%Z) ∧
  (∃ h p,
     Ppm_parse [] stego_image = (h, PpmOk p) ∧
     (Z.of_nat (length [65]%Z) <=
        Z.of_nat (capacityBytes (length (heap_get h (pixelBytes p)))) - 4)%Z ∧
     hide h (mkSteg "in" p) [65]%Z = Some (h, HideError (STEG_MSG "in"))).
Proof.
  split.
  - do 5 eexists. split; [reflexivity|]. split; [vm_compute; discriminate|].
    split; [vm_compute; reflexivity|]. split; [vm_compute; reflexivity|].
    discriminate.
  - do 2 eexists. split; [reflexivity|]. split; [vm_compute; discriminate|].
    vm_compute. reflexivity.
Qed.

(** ** Capacity *)

(** C2 (as amended): [hide] fails with STEG_TOO_BIG only if
    [3 + msg.length + 1 > capacityBytes(pixelBytes.length)]; on an image
    that carries no prior payload ([checkMagic] is false) it does so if
    and only if that holds, so that there a message of length
    [max = capacityBytes - 4] is hidden and one of length [max + 1] is
    refused with STEG_TOO_BIG; with 6 pixel bytes even the empty message
    is refused with STEG_TOO_BIG. *)
Theorem C2_capacity_error h this msg :
  let cap := capacityBytes (length (heap_get h (pixelBytes (ppm this)))) in
  (∀ h' sid, hide h this msg = Some (h', HideError (STEG_TOO_BIG sid)) →
     3 + length msg + 1 > cap) ∧
  (∀ reads, checkMagic h this = Some (false, reads) →
     (hide h this msg = Some (h, HideError (STEG_TOO_BIG (id this)))
      ↔ 3 + length msg + 1 > cap) ∧
     ((Z.of_nat (length msg) = Z.of_nat cap - 4)%Z →
      ∃ h' out, hide h this msg = Some (h', HidePpm out)) ∧
     ((Z.of_nat (length msg) = Z.of_nat cap - 4 + 1)%Z →
      hide h this msg = Some (h, HideError (STEG_TOO_BIG (id this))))) ∧
  (length (heap_get h (pixelBytes (ppm this))) = 6 →
   hide h this [] = Some (h, HideError (STEG_TOO_BIG (id this)))).
Proof.
  intros cap.
  assert (Hbig : ∀ m : jsstring, too_big (length m)
                   (length (heap_get h (pixelBytes (ppm this)))) = true
                 ↔ 3 + length m + 1 > cap).
  { intros m. rewrite too_big_spec. fold cap. unfold STEG_MAGIC_LEN.
    cbn [length STEG_MAGIC]. lia. }
  assert (Hnomagic : ∀ (m : jsstring) reads, checkMagic h this = Some (false, reads) →
            hide h this m =
              Some (if too_big (length m) (length (heap_get h (pixelBytes (ppm this))))
                    then (h, HideError (STEG_TOO_BIG (id this)))
                    else (h ++ [heap_get h (hdrBytes (ppm this));
                                embed (payload_bits m) 0
                                  (heap_get h (pixelBytes (ppm this)))],
                          HidePpm (mkPpm (width (ppm this)) (height (ppm this))
                                     (maxColors (ppm this)) (length h)
                                     (S (length h)))))).
  { intros m reads Hm.
    destruct (hide_spec h this m) as (magic & reads0 & Hm' & Hh).
    rewrite Hm in Hm'. apply Some_pair_inv in Hm'. destruct Hm' as [<- _].
    exact Hh. }
  split; [|split].
  - intros h' sid H.
    destruct (hide_spec h this msg) as (magic & reads0 & Hm' & Hh).
    rewrite Hh in H. cbn zeta in H. destruct magic; [discriminate|].
    destruct (too_big _ _) eqn:Hb; [by apply Hbig|discriminate].
  - intros reads Hm. rewrite (Hnomagic msg reads Hm).
    destruct (too_big _ _) eqn:Hb.
    + apply Hbig in Hb. split; [done|]. split; [lia|done].
    + assert (Hn : ¬ 3 + length msg + 1 > cap).
      { intros Hgt. apply Hbig in Hgt. congruence. }
      split; [split; [discriminate|done]|]. split; [eauto|lia].
  - intros H6.
    destruct (checkMagic_short h this) as [reads Hm]; [lia|].
    rewrite (Hnomagic [] reads Hm), H6. reflexivity.
Qed.

Lemma C2_capacity_error_witness :
  (∃ h' out,
     hide plain_heap (mkSteg "in" plain_ppm) [72; 105]%Z = Some (h', HidePpm out)) ∧
  hide plain_heap (mkSteg "in" plain_ppm) [72; 105; 33]%Z
    = Some (plain_heap, HideError (STEG_TOO_BIG "in")) ∧
  hide tiny_heap (mkSteg "tiny" tiny_ppm) []
    = Some (tiny_heap, HideError (STEG_TOO_BIG "tiny")).
Proof.
  pose proof (C2_capacity_error plain_heap (mkSteg "in" plain_ppm)) as H.
  split; [|split].
  - destruct (H [72; 105]%Z) as (_ & H2 & _).
    destruct (H2 (seq 0 24) eq_refl) as (_ & Hmax & _).
    apply Hmax. reflexivity.
  - destruct (H [72; 105; 33]%Z) as (_ & H2 & _).
    destruct (H2 (seq 0 24) eq_refl) as (_ & _ & Hover).
    apply Hover. reflexivity.
  - destruct (C2_capacity_error tiny_heap (mkSteg "tiny" tiny_ppm) [])
      as (_ & _ & Htiny).
    apply Htiny. reflexivity.
Defined.

(** C2, counterexample to the claim as stated: on an image that already
    carries a payload, a message that is too long is refused with STEG_MSG,
    not with STEG_TOO_BIG. *)
Lemma C2_counterexample :
  ∃ h p,
    Ppm_parse [] stego_image = (h, PpmOk p) ∧
    3 + length [72; 105; 33]%Z + 1
      > capacityBytes (length (heap_get h (pixelBytes p))) ∧
    hide h (mkSteg "in" p) [72; 105; 33]%Z = Some (h, HideError (STEG_MSG "in")).
Proof.
  do 2 eexists. split; [reflexivity|]. split; [vm_compute; lia|].
  vm_compute. reflexivity.
Qed.

(** ** Parsing and serialising *)

Lemma typed_array_set_fill (hdr pix : Uint8Array) :
  typed_array_set
    (typed_array_set (replicate (length hdr + length pix) Byte.x00) hdr 0)
    pix (length hdr) = hdr ++ pix.
Proof.
  unfold typed_array_set. rewrite take_0. cbn [Nat.add app].
  rewrite take_app_length, drop_replicate.
  replace (length hdr + length pix - length hdr) with (length pix) by lia.
  rewrite drop_ge by (rewrite length_app, length_replicate; lia).
  by rewrite app_nil_r.
Qed.

(** C3: for every byte buffer [b] that [new Ppm(b)] accepts, the bytes of
    the resulting image, [hdrBytes] followed by [pixelBytes], are [b]. *)
Theorem C3_parse_serialize_identity h0 b h p :
  Ppm_parse h0 b = (h, PpmOk p) →
  ∃ h' l, Ppm_bytes h p = (h', l) ∧ h' !! l = Some b ∧
          heap_get h (hdrBytes p) ++ heap_get h (pixelBytes p) = b.
Proof.
  intros H. apply parse_ok_inv in H. destruct H as (f & _ & -> & ->).
  unfold Ppm_bytes, heap_alloc. cbn [hdrBytes pixelBytes].
  destruct (heap_get_result h0 (take (f_pixelsIndex f) b) (drop (f_pixelsIndex f) b))
    as [Hpix Hhdr].
  rewrite Hpix, Hhdr, typed_array_set_fill, take_drop.
  do 2 eexists. split; [reflexivity|]. split; [|done].
  by rewrite list_lookup_middle.
Qed.

Lemma C3_parse_serialize_identity_witness :
  ∃ h p h' l,
    Ppm_parse [] plain_image = (h, PpmOk p) ∧
    Ppm_bytes h p = (h', l) ∧ h' !! l = Some plain_image.
Proof.
  destruct (C3_parse_serialize_identity [] plain_image plain_heap plain_ppm
              eq_refl)
    as (h' & l & Hb & Hl & _).
  eauto 10.
Defined.

(** ** Malformed input *)

Lemma ppmFormat_checked b f :
  ppmFormat b = Some f →
  (f_width f > 0)%Z ∧ (f_height f > 0)%Z ∧ f_maxColors f = 255%Z ∧
  Z.of_nat (length b) = (Z.of_nat (f_pixelsIndex f) + f_width f * f_height f * 3)%Z.
Proof.
  unfold ppmFormat.
  destruct (nextChar b 0) as [c0 i1]. destruct (nextChar b i1) as [c1 i2].
  destruct (char_differs c0 0 && char_differs c1 1); [discriminate|].
  destruct (nextInt b i2) as [w i3]. destruct (nextInt b i3) as [hg i4].
  destruct (nextInt b i4) as [mc i5].
  destruct w as [w|]; [|discriminate]. destruct hg as [hg|]; [|discriminate].
  destruct mc as [mc|]; [|discriminate].
  destruct (_ && _) eqn:Hc; [|discriminate].
  intros Hf. apply (inj Some) in Hf. subst f. cbn [f_width f_height f_maxColors f_pixelsIndex].
  apply andb_prop in Hc. destruct Hc as [Hc H4].
  apply andb_prop in Hc. destruct Hc as [Hc H3].
  apply andb_prop in Hc. destruct Hc as [H1 H2].
  apply Z.eqb_eq in H3, H4. rewrite Z.gtb_ltb in H1, H2.
  apply Z.ltb_lt in H1, H2. lia.
Qed.

Lemma ppmFormat_magic b f :
  ppmFormat b = Some f →
  b !! 0 = Some (ToUint8 80) ∨ b !! 1 = Some (ToUint8 54).
Proof.
  unfold ppmFormat, nextChar, load.
  destruct b as [|b0 [|b1 b]]; cbn [length Nat.ltb Nat.leb lookup list_lookup
                                    from_option]; [discriminate| |].
  - destruct (char_differs (Some (u8 b0)) 0) eqn:H0; [discriminate|].
    intros _. left. unfold char_differs in H0. simpl in H0.
    apply negb_false_iff, Z.eqb_eq in H0. by rewrite <- H0, ToUint8_u8.
  - destruct (char_differs (Some (u8 b0)) 0) eqn:H0;
      destruct (char_differs (Some (u8 b1)) 1) eqn:H1; try discriminate; intros _.
    + right. unfold char_differs in H1. simpl in H1.
      apply negb_false_iff, Z.eqb_eq in H1. by rewrite <- H1, ToUint8_u8.
    + left. unfold char_differs in H0. simpl in H0.
      apply negb_false_iff, Z.eqb_eq in H0. by rewrite <- H0, ToUint8_u8.
    + left. unfold char_differs in H0. simpl in H0.
      apply negb_false_iff, Z.eqb_eq in H0. by rewrite <- H0, ToUint8_u8.
Qed.

(** C4: buffers whose 2-byte magic marker is not "P6" -- "P5" and "X6"
    followed by an otherwise well-formed 1x1 image -- are accepted by
    [ppmFormat] and by [new Ppm(bytes)], because the marker is rejected
    only when both of its characters differ. *)
Theorem C4_wrong_magic_accepted :
  ppmFormat p5_image = Some (mkFormat 1 1 255 11) ∧
  ppmFormat x6_image = Some (mkFormat 1 1 255 11) ∧
  snd (Ppm_parse [] p5_image) = PpmOk (mkPpm 1 1 255 0 1) ∧
  snd (Ppm_parse [] x6_image) = PpmOk (mkPpm 1 1 255 0 1).
Proof. repeat split; reflexivity. Qed.

(** ** Bounded mode of [unhideLo] *)

(** C5 (as amended): with a bound [msgLen >= 1], [unhideLo] returns the
    bytes decoded from the successive groups of 8 pixel bytes starting at
    the offset, up to but excluding the first zero byte, and at most
    [msgLen] of them; so it returns exactly [msgLen] bytes when the first
    [msgLen] groups exist and decode to non-zero bytes, and fewer when a
    zero byte is decoded or the pixel bytes run out first. *)
Theorem C5_bounded_unhideLo bytes off msgLen :
  (0 < msgLen)%Z →
  let decoded := groups bytes off (length bytes / 8 - off) in
  (∃ reads,
     unhideLo bytes off msgLen =
       Some (JsStr (take (Z.to_nat msgLen) (nonzero_prefix decoded)), reads)) ∧
  (Z.to_nat msgLen ≤ length decoded →
   Forall (fun v => v ≠ 0%Z) (take (Z.to_nat msgLen) decoded) →
   ∃ reads,
     unhideLo bytes off msgLen =
       Some (JsStr (take (Z.to_nat msgLen) decoded), reads) ∧
     length (take (Z.to_nat msgLen) decoded) = Z.to_nat msgLen).
Proof.
  intros Hm decoded.
  assert (H1 : ∃ reads,
     unhideLo bytes off msgLen =
       Some (JsStr (take (Z.to_nat msgLen) (nonzero_prefix decoded)), reads)).
  { rewrite unhideLo_scan. fold decoded.
    destruct (scan_bounded decoded msgLen [] None None 0) as (cc & mask & k & ->).
    { simpl. lia. }
    replace (msgLen <? 0)%Z with false by (symmetry; apply Z.ltb_ge; lia).
    cbn [andb app length]. rewrite Nat.sub_0_r. eauto. }
  split; [exact H1|].
  intros Hlen Hnz. destruct H1 as [reads H1]. exists reads.
  split; [|rewrite length_take; lia].
  rewrite H1. do 3 f_equal.
  rewrite <- (take_drop (Z.to_nat msgLen) decoded) at 1.
  generalize dependent (drop (Z.to_nat msgLen) decoded). intros rest.
  assert (Hl : length (take (Z.to_nat msgLen) decoded) = Z.to_nat msgLen)
    by (rewrite length_take; lia).
  revert Hnz Hl. generalize (take (Z.to_nat msgLen) decoded) as pre.
  generalize (Z.to_nat msgLen) as n. clear.
  intros n pre Hnz. revert n.
  induction Hnz as [|v pre Hv Hnz IH]; intros n Hl; simpl in *.
  - subst n. done.
  - apply Z.eqb_neq in Hv. rewrite Hv. destruct n as [|n]; [done|].
    simpl. f_equal. apply IH. lia.
Qed.

Lemma C5_bounded_unhideLo_witness :
  ∃ reads,
    unhideLo (embed (payload_bits [72; 105]%Z) 0 (replicate 48 (ToUint8 7))) 0 3
      = Some (JsStr [115; 116; 103]%Z, reads).
Proof.
  destruct (C5_bounded_unhideLo
              (embed (payload_bits [72; 105]%Z) 0 (replicate 48 (ToUint8 7))) 0 3
              ltac:(lia)) as [[reads H] _].
  exists reads. exact H.
Defined.

(** C5, counterexample to the claim as stated: asked for 3 bytes from
    pixel bytes that decode to 'A', NUL, 'B', ..., the bounded mode stops
    at the zero byte and returns the single byte 'A'. *)
Lemma C5_counterexample :
  ∃ reads,
    unhideLo (embed (concat (map bits8 [65; 0; 66]%Z)) 0
                (replicate 48 (ToUint8 7))) 0 3
      = Some (JsStr [65]%Z, reads) ∧
    length [65]%Z ≠ 3.
Proof. eexists. split; [vm_compute; reflexivity|]. simpl. lia. Qed.

(** ** Frame of [hide] *)

(** C6: when [hide] succeeds, every array that exists before the call --
    among them the pixel bytes, and the header bytes, of the input image
    -- is unchanged after it; the returned image has fresh arrays of its
    own, its header bytes equal those of the input, and its pixel bytes
    agree with those of the input in length, in the upper 7 bits of every
    byte and in every byte at an index [>= 8 * (msg.length + 4)]. *)
Theorem C6_hide_frame h this msg h' out :
  hide h this msg = Some (h', HidePpm out) →
  let p := ppm this in
  let pix := heap_get h (pixelBytes p) in
  let pix' := heap_get h' (pixelBytes out) in
  (∀ l a, h !! l = Some a → h' !! l = Some a) ∧
  h !! pixelBytes p = Some pix ∧ h' !! pixelBytes p = Some pix ∧
  (hdrBytes p < length h →
   heap_get h' (hdrBytes p) = heap_get h (hdrBytes p)) ∧
  length h ≤ hdrBytes out ∧ length h ≤ pixelBytes out ∧
  hdrBytes out ≠ pixelBytes out ∧
  heap_get h' (hdrBytes out) = heap_get h (hdrBytes p) ∧
  width out = width p ∧ height out = height p ∧ maxColors out = maxColors p ∧
  length pix' = length pix ∧
  (∀ i, Z.shiftr (load pix' i) 1 = Z.shiftr (load pix i) 1) ∧
  (∀ i, 8 * (length msg + 4) ≤ i → pix' !! i = pix !! i).
Proof.
  intros H p pix pix'. apply hide_ok_inv in H. fold p pix in H.
  destruct H as (_ & Hlen & Hp & Hh' & Hout).
  destruct (heap_get_result h (heap_get h (hdrBytes p))
              (embed (payload_bits msg) 0 pix)) as [Hpix' Hhdr'].
  assert (Hpix'' : pix' = embed (payload_bits msg) 0 pix).
  { unfold pix'. by rewrite Hh', Hout. }
  assert (Hkeep : ∀ l a, h !! l = Some a → h' !! l = Some a).
  { intros l a Hl. rewrite Hh'. rewrite lookup_app_l by (by eapply lookup_lt_Some).
    done. }
  assert (Hin : h !! pixelBytes p = Some pix).
  { unfold pix, heap_get. destruct (lookup_lt_is_Some_2 h _ Hp) as [a ->]. done. }
  split; [exact Hkeep|]. split; [exact Hin|]. split; [by apply Hkeep|].
  split.
  { intros Hhdr. unfold heap_get. rewrite Hh'. by rewrite lookup_app_l. }
  rewrite Hout. cbn [hdrBytes pixelBytes width height maxColors].
  split; [lia|]. split; [lia|]. split; [lia|].
  split; [by rewrite Hh'|]. split; [done|]. split; [done|]. split; [done|].
  rewrite Hpix''. split; [apply embed_length|]. split; [intros i; apply embed_upper|].
  intros i Hi. apply embed_lookup_ge.
  unfold payload_bits. rewrite length_bits_codes.
  pose proof (charCodes_length_le (STEG_MAGIC ++ msg ++ [0%Z])) as Hle.
  rewrite !length_app in Hle. cbn [length STEG_MAGIC] in Hle. lia.
Qed.

Lemma C6_hide_frame_witness :
  hide plain_heap (mkSteg "in" plain_ppm) [72; 105]%Z
    = Some (hidden_heap, HidePpm hidden_ppm) ∧
  hidden_heap !! 1 = Some (replicate 48 (ToUint8 7)) ∧
  heap_get hidden_heap 0 = header_4x4.
Proof.
  assert (H : hide plain_heap (mkSteg "in" plain_ppm) [72; 105]%Z
              = Some (hidden_heap, HidePpm hidden_ppm)) by (vm_compute; reflexivity).
  split; [exact H|].
  destruct (C6_hide_frame _ _ _ _ _ H) as (_ & _ & Hpix & Hhdr & _).
  split; [exact Hpix|]. apply Hhdr. simpl. lia.
Defined.

(** ** Hiding twice *)

(** C7: when [hide] succeeds on an image with a message [m1], the pixel
    bytes of the result begin with the bit-encoded prefix 'stg', so
    [checkMagic] is true on the result and hiding any message [m2] in it
    fails with STEG_MSG. *)
Theorem C7_double_hide_rejected h this m1 h' out :
  hide h this m1 = Some (h', HidePpm out) →
  ∀ sid m2,
    groups (heap_get h' (pixelBytes out)) 0 3 = STEG_MAGIC ∧
    (∃ reads, checkMagic h' (mkSteg sid out) = Some (true, reads)) ∧
    hide h' (mkSteg sid out) m2 = Some (h', HideError (STEG_MSG sid)).
Proof.
  intros H sid m2. apply hide_ok_inv in H.
  destruct H as (_ & Hlen & _ & Hh' & Hout).
  set (pix := heap_get h (pixelBytes (ppm this))) in *.
  assert (Hget : heap_get h' (pixelBytes out) = embed (payload_bits m1) 0 pix).
  { rewrite Hh', Hout. apply heap_get_result. }
  assert (Hm : checkMagic h' (mkSteg sid out) = Some (true, seq 0 24)).
  { by apply (checkMagic_hidden m1 pix). }
  split; [|split; [eauto|]].
  - rewrite Hget.
    assert (H3 : 3 ≤ length pix / 8).
    { unfold STEG_MAGIC_LEN in Hlen. cbn [length STEG_MAGIC] in Hlen.
      div8 (length pix). lia. }
    pose proof (hidden_groups m1 pix Hlen) as Hg. cbn zeta in Hg.
    replace (length pix / 8) with (3 + (length pix / 8 - 3)) in Hg at 1 by lia.
    rewrite groups_app in Hg.
    apply (f_equal (take 3)) in Hg.
    rewrite take_app_length' in Hg by (by rewrite groups_length).
    exact Hg.
  - destruct (hide_spec h' (mkSteg sid out) m2) as (magic & reads & Hm' & Hh).
    rewrite Hm in Hm'. apply Some_pair_inv in Hm'. destruct Hm' as [<- _].
    exact Hh.
Qed.

Lemma C7_double_hide_rejected_witness :
  hide plain_heap (mkSteg "in" plain_ppm) [72; 105]%Z
    = Some (hidden_heap, HidePpm hidden_ppm) ∧
  hide hidden_heap (mkSteg "out" hidden_ppm) [33]%Z
    = Some (hidden_heap, HideError (STEG_MSG "out")).
Proof.
  assert (H : hide plain_heap (mkSteg "in" plain_ppm) [72; 105]%Z
              = Some (hidden_heap, HidePpm hidden_ppm)) by (vm_compute; reflexivity).
  split; [exact H|].
  apply (C7_double_hide_rejected _ _ _ _ _ H).
Defined.

(** ** A missing terminator *)

Lemma scan_magic vals :
  scan (STEG_MAGIC ++ vals) 3 [] None None 0 = (STEG_MAGIC, Some 103%Z, Some 0%Z, 3).
Proof. reflexivity. Qed.

Lemma unhide_unterminated h this vals :
  let pix := heap_get h (pixelBytes (ppm this)) in
  groups pix 0 (length pix / 8) = STEG_MAGIC ++ vals →
  Forall (fun v => v ≠ 0%Z) vals →
  ∃ reads, unhide h this = Some (UnhideError (STEG_BAD_MSG (id this)), reads).
Proof.
  intros pix Hg Hnz. unfold unhide. rewrite checkMagic_scan. cbn zeta.
  fold pix. rewrite Hg, scan_magic. cbn [mbind option_bind].
  rewrite bool_decide_eq_true_2 by done. cbn [negb].
  rewrite unhideLo_scan, groups_drop. fold pix. rewrite Hg.
  change (drop STEG_MAGIC_LEN (STEG_MAGIC ++ vals)) with vals.
  destruct (scan_exhausted vals (-1) [] None None 0) as (cc & mask & k & -> & Hst);
    [lia|done|done|].
  rewrite Hst. cbn. eauto.
Qed.

(** C8 (as amended): take an image produced by a successful [hide] of a
    message made of non-zero bytes, and change the 8 pixel bytes that
    encode the terminator so that they decode to a non-zero value; if no
    later complete group of 8 pixel bytes decodes to zero (as is the case
    when the message has the maximal length), [unhide] on the modified
    image fails with STEG_BAD_MSG. *)
Theorem C8_corrupt_terminator h this msg h' out h2 this2 :
  hide h this msg = Some (h', HidePpm out) →
  byte_message msg →
  let pix' := heap_get h' (pixelBytes out) in
  let pix2 := heap_get h2 (pixelBytes (ppm this2)) in
  let t := 3 + length msg in
  length pix2 = length pix' →
  (∀ i, i < 8 * t ∨ 8 * (t + 1) ≤ i → pix2 !! i = pix' !! i) →
  group_value pix2 (8 * t) ≠ 0%Z →
  (∀ g, t < g < length pix' / 8 → group_value pix' (8 * g) ≠ 0%Z) →
  ∃ reads, unhide h2 this2 = Some (UnhideError (STEG_BAD_MSG (id this2)), reads).
Proof.
  intros H Hb pix' pix2 t Hlen2 Hsame Hterm Hlater.
  apply hide_ok_inv in H. destruct H as (_ & Hlen & _ & Hh' & Hout).
  set (pix := heap_get h (pixelBytes (ppm this))) in *.
  assert (Hpix' : pix' = embed (payload_bits msg) 0 pix).
  { unfold pix'. rewrite Hh', Hout. apply heap_get_result. }
  assert (HL : length pix' = length pix) by (rewrite Hpix'; apply embed_length).
  pose proof Hlen as Hlen0.
  unfold STEG_MAGIC_LEN in Hlen. cbn [length STEG_MAGIC] in Hlen.
  div8 (length pix).
  set (cap := length pix / 8) in *.
  assert (Hcap : t + 1 ≤ cap) by (unfold t; lia).
  (* the groups of the image [hide] produced *)
  pose proof (hidden_groups msg pix Hlen0) as Hg. cbn zeta in Hg. fold cap in Hg.
  rewrite <- Hpix' in Hg.
  rewrite byte_message_codes, byte_message_charCodes in Hg by done.
  (* the groups of the modified image *)
  apply (unhide_unterminated h2 this2
           (msg ++ group_value pix2 (8 * t) :: groups pix' (t + 1) (cap - (t + 1)))).
  - fold pix2. rewrite Hlen2, HL. fold cap.
    replace cap with (t + (1 + (cap - (t + 1)))) at 1 by lia.
    rewrite !groups_app.
    transitivity ((STEG_MAGIC ++ msg) ++ [group_value pix2 (8 * t)] ++
                    groups pix' (t + 1) (cap - (t + 1)));
      [|by rewrite <- app_assoc].
    f_equal; [|f_equal].
    + rewrite (groups_ext pix' pix2) by (intros i Hi; apply Hsame; lia).
      apply (f_equal (take t)) in Hg.
      replace cap with (t + (cap - t)) in Hg at 1 by lia.
      rewrite groups_app in Hg.
      rewrite take_app_length' in Hg by (by rewrite groups_length).
      rewrite app_assoc in Hg.
      rewrite take_app_length' in Hg; [exact Hg|].
      rewrite length_app. unfold t. simpl. lia.
    + apply groups_ext. intros i Hi. apply Hsame. lia.
  - apply Forall_app. split.
    { eapply Forall_impl; [exact Hb|]. simpl. lia. }
    constructor; [done|].
    unfold groups. apply Forall_fmap, Forall_seq. intros g Hg'. simpl.
    apply Hlater. rewrite HL. fold cap. lia.
Qed.

Lemma C8_corrupt_terminator_witness :
  hide plain_heap (mkSteg "in" plain_ppm) [72; 105]%Z
    = Some (hidden_heap, HidePpm hidden_ppm) ∧
  ∃ reads,
    unhide clobbered_heap (mkSteg "out" hidden_ppm)
      = Some (UnhideError (STEG_BAD_MSG "out"), reads).
Proof.
  assert (H : hide plain_heap (mkSteg "in" plain_ppm) [72; 105]%Z
              = Some (hidden_heap, HidePpm hidden_ppm)) by (vm_compute; reflexivity).
  split; [exact H|].
  apply (C8_corrupt_terminator _ _ _ _ _ clobbered_heap (mkSteg "out" hidden_ppm) H).
  - repeat constructor; lia.
  - vm_compute. reflexivity.
  - intros i Hi.
    do 48 (destruct i as [|i]; [first [reflexivity | exfalso; simpl in Hi; lia]|]).
    reflexivity.
  - vm_compute. discriminate.
  - intros g Hg. exfalso. change (length _ / 8) with 6 in Hg. simpl in Hg. lia.
Defined.

(** C8, counterexample to the claim as stated: 'A' is hidden in an image
    whose pixel bytes are all 0, and the last pixel byte of the terminator
    is overwritten with 1; the terminator then decodes to 1, but the next
    group of 8 pixel bytes decodes to zero, so [unhide] returns the message
    [65; 1] instead of failing. *)
Lemma C8_counterexample :
  ∃ h' out reads,
    hide zero_heap (mkSteg "in" plain_ppm) [65]%Z = Some (h', HidePpm out) ∧
    group_value (heap_get (heap_store h' (pixelBytes out) 39 1) (pixelBytes out))
      (8 * (3 + length [65]%Z)) = 1%Z ∧
    unhide (heap_store h' (pixelBytes out) 39 1) (mkSteg "out" out)
      = Some (UnhideMsg [65; 1]%Z, reads).
Proof.
  do 3 eexists. split; [vm_compute; reflexivity|].
  split; vm_compute; reflexivity.
Qed.

(** ** What is embedded for each character *)

(** C9 (as amended): [hide] embeds one byte per character of the message,
    the low-order 8 bits of the first UTF-16 code unit of the character
    (the string is walked by code points); [unhide] recovers exactly those
    bytes, up to the first of them that is zero.  A message made of
    characters with codes in 1..255 is thus recovered in full, and a code
    above 255 is reduced to its low-order 8 bits. *)
Theorem C9_low_order_bytes h this msg h' out :
  hide h this msg = Some (h', HidePpm out) →
  groups (heap_get h' (pixelBytes out)) 0 (3 + length (charCodes msg) + 1)
    = STEG_MAGIC ++ map low8 (charCodes msg) ++ [0%Z] ∧
  (∀ sid, ∃ reads,
     unhide h' (mkSteg sid out)
       = Some (UnhideMsg (nonzero_prefix (map low8 (charCodes msg))), reads)) ∧
  (byte_message msg → nonzero_prefix (map low8 (charCodes msg)) = msg).
Proof.
  intros H. split; [|split].
  - apply hide_ok_inv in H. destruct H as (_ & Hlen & _ & Hh' & Hout).
    set (pix := heap_get h (pixelBytes (ppm this))) in *.
    assert (Hget : heap_get h' (pixelBytes out) = embed (payload_bits msg) 0 pix).
    { rewrite Hh', Hout. apply heap_get_result. }
    rewrite Hget.
    pose proof (hidden_groups msg pix Hlen) as Hg. cbn zeta in Hg.
    pose proof (charCodes_length_le msg) as Hle.
    unfold STEG_MAGIC_LEN in Hlen. cbn [length STEG_MAGIC] in Hlen.
    div8 (length pix).
    set (n := 3 + length (charCodes msg) + 1).
    replace (length pix / 8) with (n + (length pix / 8 - n)) in Hg at 1
      by (unfold n; lia).
    rewrite groups_app in Hg. apply (f_equal (take n)) in Hg.
    rewrite take_app_length' in Hg by (by rewrite groups_length).
    rewrite Hg.
    transitivity
      (take n ((STEG_MAGIC ++ map low8 (charCodes msg) ++ [0%Z]) ++
               groups pix (4 + length (charCodes msg))
                 (length pix / 8 - (4 + length (charCodes msg))))).
    { f_equal. by rewrite <- !app_assoc. }
    apply take_app_length'. rewrite !length_app, length_map. unfold n. simpl. lia.
  - intros sid. by apply (unhide_after_hide h this).
  - apply byte_message_recovered.
Qed.

Lemma C9_low_order_bytes_witness :
  hide plain_heap (mkSteg "in" plain_ppm) [72; 105]%Z
    = Some (hidden_heap, HidePpm hidden_ppm) ∧
  ∃ reads,
    unhide hidden_heap (mkSteg "out" hidden_ppm) = Some (UnhideMsg [72; 105]%Z, reads).
Proof.
  assert (H : hide plain_heap (mkSteg "in" plain_ppm) [72; 105]%Z
              = Some (hidden_heap, HidePpm hidden_ppm)) by (vm_compute; reflexivity).
  split; [exact H|].
  destruct (C9_low_order_bytes _ _ _ _ _ H) as (_ & Hu & _).
  exact (Hu "out").
Defined.

(** C9, counterexample to the claim as stated: the character U+0141, code
    321 = 256 + 65, is embedded as the byte 65 and comes back as 'A'. *)
Lemma C9_counterexample :
  ∃ h' out reads,
    hide plain_heap (mkSteg "in" plain_ppm) [321]%Z = Some (h', HidePpm out) ∧
    unhide h' (mkSteg "out" out) = Some (UnhideMsg [65]%Z, reads) ∧
    [65]%Z ≠ [321]%Z.
Proof.
  do 3 eexists. split; [vm_compute; reflexivity|].
  split; [vm_compute; reflexivity|discriminate].
Qed.

(** ** Reads stay inside the pixel bytes *)

Lemma unhide_reads h this :
  ∃ r reads, unhide h this = Some (r, reads) ∧
    Forall (fun i => i < length (heap_get h (pixelBytes (ppm this))) / 8 * 8) reads.
Proof.
  unfold unhide, checkMagic.
  destruct (unhideLo_reads (heap_get h (pixelBytes (ppm this))) 0
              (Z.of_nat STEG_MAGIC_LEN)) as (v1 & reads1 & -> & Hr1).
  cbn [mbind option_bind].
  destruct (negb (strict_eq_str v1 STEG_MAGIC)); [eauto|].
  destruct (unhideLo_reads (heap_get h (pixelBytes (ppm this))) STEG_MAGIC_LEN (-1))
    as (v2 & reads2 & -> & Hr2).
  cbn [mbind option_bind].
  assert (Forall (fun i => i < length (heap_get h (pixelBytes (ppm this))) / 8 * 8)
            (reads1 ++ reads2)) by (by apply Forall_app).
  destruct v2; eauto.
Qed.

(** C10: every index at which [unhideLo] -- and so [checkMagic] and
    [unhide] -- reads [pixelBytes] is strictly below
    [floor(pixelBytes.length / 8) * 8], which is at most
    [pixelBytes.length]; on an image with fewer than 24 pixel bytes
    [checkMagic] is false and [unhide] fails with STEG_NO_MSG; and the
    pixel bytes from index [floor(pixelBytes.length / 8) * 8] on have no
    influence on what [unhideLo], [checkMagic] and [unhide] return. *)
Theorem C10_reads_in_bounds h this :
  let bytes := heap_get h (pixelBytes (ppm this)) in
  let maxOffset := length bytes / 8 * 8 in
  maxOffset ≤ length bytes ∧
  (∀ off msgLen, ∃ v reads,
     unhideLo bytes off msgLen = Some (v, reads) ∧
     Forall (fun i => i < maxOffset) reads) ∧
  (∃ magic reads,
     checkMagic h this = Some (magic, reads) ∧ Forall (fun i => i < maxOffset) reads) ∧
  (∃ r reads,
     unhide h this = Some (r, reads) ∧ Forall (fun i => i < maxOffset) reads) ∧
  (length bytes < 24 →
   ∃ reads, checkMagic h this = Some (false, reads) ∧
            unhide h this = Some (UnhideError (STEG_NO_MSG (id this)), reads)) ∧
  (∀ h2 this2,
     let bytes2 := heap_get h2 (pixelBytes (ppm this2)) in
     length bytes2 = length bytes →
     (∀ i, i < maxOffset → bytes2 !! i = bytes !! i) →
     id this2 = id this →
     (∀ off msgLen, unhideLo bytes2 off msgLen = unhideLo bytes off msgLen) ∧
     checkMagic h2 this2 = checkMagic h this ∧
     unhide h2 this2 = unhide h this).
Proof.
  intros bytes maxOffset.
  split; [|split; [|split; [|split; [|split]]]].
  - unfold maxOffset. pose proof (Nat.div_mod_eq (length bytes) 8). lia.
  - intros off msgLen. apply unhideLo_reads.
  - unfold checkMagic. fold bytes.
    destruct (unhideLo_reads bytes 0 (Z.of_nat STEG_MAGIC_LEN))
      as (v & reads & -> & Hr).
    cbn [mbind option_bind]. eauto.
  - apply unhide_reads.
  - intros Hlen. destruct (checkMagic_short h this Hlen) as [reads Hm].
    exists reads. split; [exact Hm|]. unfold unhide. by rewrite Hm.
  - intros h2 this2 bytes2 Hlen Hsame Hid.
    assert (Hlo : ∀ off msgLen,
              unhideLo bytes2 off msgLen = unhideLo bytes off msgLen).
    { intros off msgLen. by apply unhideLo_ext. }
    assert (Hcm : checkMagic h2 this2 = checkMagic h this).
    { unfold checkMagic. fold bytes bytes2. by rewrite Hlo. }
    split; [exact Hlo|]. split; [exact Hcm|].
    unfold unhide. fold bytes bytes2. by rewrite Hcm, Hlo, Hid.
Qed.

Lemma C10_reads_in_bounds_witness :
  ∃ reads,
    checkMagic tiny_heap (mkSteg "tiny" tiny_ppm) = Some (false, reads) ∧
    unhide tiny_heap (mkSteg "tiny" tiny_ppm)
      = Some (UnhideError (STEG_NO_MSG "tiny"), reads).
Proof.
  destruct (C10_reads_in_bounds tiny_heap (mkSteg "tiny" tiny_ppm))
    as (_ & _ & _ & _ & Hshort & _).
  apply Hshort. simpl. lia.
Defined.

(** * Further properties *)

(** ** Reading integers from the header *)

Lemma advance_while_spec p (b : Uint8Array) n : ∀ i,
  length b - i = n →
  let j := advance_while p (drop i b) i in
  i ≤ j ∧ (j ≤ length b ∨ j = i) ∧
  (∀ k, i ≤ k < j → ∃ x, b !! k = Some x ∧ p x = true) ∧
  (∀ x, b !! j = Some x → p x = false).
Proof.
  induction n as [|n IH]; intros i Hn.
  - rewrite drop_ge by lia. simpl. split; [lia|]. split; [by right|].
    split; [intros k Hk; lia|].
    intros x Hx. apply lookup_lt_Some in Hx. lia.
  - destruct (lookup_lt_is_Some_2 b i ltac:(lia)) as [x Hx].
    rewrite (drop_S _ _ _ Hx). cbn [advance_while].
    destruct (p x) eqn:Hp.
    + destruct (IH (S i) ltac:(lia)) as (H1 & H2 & H3 & H4).
      split; [lia|]. split; [left; lia|]. split; [|exact H4].
      intros k Hk. destruct (decide (k = i)) as [->|Hne]; [eauto|].
      apply H3. lia.
    + split; [lia|]. split; [by right|]. split; [intros k Hk; lia|].
      intros y Hy. congruence.
Qed.

Lemma Number_of_nonneg str : (0 <= Number_of str)%Z.
Proof.
  unfold Number_of.
  assert (H : ∀ acc, (0 <= acc)%Z →
            (0 <= fold_left (fun acc b =>
                     if isdigit b then (10 * acc + (u8 b - 48))%Z else acc) str acc)%Z).
  { induction str as [|c str IH]; intros acc Hacc; simpl; [done|].
    apply IH. destruct (isdigit c) eqn:Hd; [|done].
    unfold isdigit in Hd. apply andb_prop in Hd. destruct Hd as [Hd _].
    apply Z.leb_le in Hd. lia. }
  apply H. lia.
Qed.

Lemma slice_split (b : Uint8Array) i s j :
  i ≤ s → s ≤ j → s ≤ length b → slice b i j = slice b i s ++ slice b s j.
Proof.
  intros Hi Hs Hlen. unfold slice.
  rewrite <- (take_drop (s - i) (drop i b)) at 1.
  rewrite drop_drop. replace (i + (s - i)) with s by lia.
  replace (j - i) with ((s - i) + (j - s)) by lia.
  apply take_app_add'. rewrite length_take, length_drop. lia.
Qed.

Lemma slice_lookup (b : Uint8Array) i j k x :
  slice b i j !! k = Some x → b !! (i + k) = Some x ∧ i + k < j.
Proof.
  unfold slice. intros H. apply lookup_take_Some in H. destruct H as [H Hk].
  rewrite lookup_drop in H. split; [done|lia].
Qed.

Lemma isspace_not_digit x : isspace x = true → isdigit x = false.
Proof.
  unfold isspace, isdigit. intros H.
  apply andb_false_iff.
  repeat (apply orb_prop in H; destruct H as [H|H]);
    apply Z.eqb_eq in H; rewrite H; by left.
Qed.

Lemma Number_of_skip (ws ds : Uint8Array) :
  Forall (fun x => isdigit x = false) ws → Number_of (ws ++ ds) = Number_of ds.
Proof.
  unfold Number_of. rewrite fold_left_app. intros H. f_equal.
  induction H as [|x ws Hx Hws IH]; simpl; [done|]. by rewrite Hx.
Qed.

Lemma nextInt_run buf index :
  match nextInt buf index with
  | (None, index') => index' = index
  | (Some v, index') =>
      (0 <= v)%Z ∧
      ∃ s, index ≤ s ∧ s < index' ∧ index' ≤ length buf ∧
        (∀ k, index ≤ k < s → ∃ x, buf !! k = Some x ∧ isspace x = true) ∧
        (∀ k, s ≤ k < index' → ∃ x, buf !! k = Some x ∧ isdigit x = true) ∧
        (∀ x, buf !! index' = Some x → isdigit x = false) ∧
        v = Number_of (slice buf s index')
  end.
Proof.
  unfold nextInt, advanceOverNextInt.
  destruct (advance_while_spec isspace buf _ index eq_refl) as (Hs1 & Hs2 & Hs3 & Hs4).
  set (s := advance_while isspace (drop index buf) index) in *.
  destruct (buf !! s) as [x|] eqn:Hx; [|done].
  destruct (isdigit x) eqn:Hd; [|done]. cbn [negb].
  destruct (advance_while_spec isdigit buf _ s eq_refl) as (Hd1 & Hd2 & Hd3 & Hd4).
  set (j := advance_while isdigit (drop s buf) s) in *.
  assert (Hsj : s < j).
  { destruct (decide (s < j)) as [|Hn]; [done|].
    assert (j = s) as Hjs by lia. rewrite Hjs in Hd4.
    specialize (Hd4 x Hx). congruence. }
  rewrite gtb_pos by lia. rewrite Nat2Z.id.
  split; [apply Number_of_nonneg|].
  exists s. repeat split; try done; try lia.
  rewrite (slice_split buf index s j) by lia.
  apply Number_of_skip, Forall_lookup. intros k y Hk.
  apply slice_lookup in Hk. destruct Hk as [Hk Hlt].
  destruct (Hs3 (index + k) ltac:(lia)) as (z & Hz & Hsp).
  rewrite Hk in Hz. injection Hz as <-. by apply isspace_not_digit.
Qed.


(** ** The image [new Ppm(bytes)] builds *)

Lemma nextChar_index buf index c index' :
  nextChar buf index = (c, index') → index ≤ index' ≤ S index.
Proof.
  unfold nextChar. destruct (index <? length buf); intros H;
    apply (f_equal snd) in H; simpl in H; lia.
Qed.

Lemma nextInt_Some buf index v index' :
  nextInt buf index = (Some v, index') → index < index' ≤ length buf.
Proof.
  intros H. pose proof (nextInt_run buf index) as Hs. rewrite H in Hs.
  destruct Hs as (_ & s & ? & ? & ? & _). lia.
Qed.

Lemma ppmFormat_inv b f :
  ppmFormat b = Some f →
  ∃ c0 i1 c1 i2 i3 i4 i5,
    nextChar b 0 = (c0, i1) ∧ nextChar b i1 = (c1, i2) ∧
    char_differs c0 0 && char_differs c1 1 = false ∧
    nextInt b i2 = (Some (f_width f), i3) ∧
    nextInt b i3 = (Some (f_height f), i4) ∧
    nextInt b i4 = (Some (f_maxColors f), i5) ∧
    f_pixelsIndex f = i5 + 1.
Proof.
  unfold ppmFormat. intros Hf.
  destruct (nextChar b 0) as [c0 i1] eqn:Hc0.
  destruct (nextChar b i1) as [c1 i2] eqn:Hc1.
  destruct (char_differs c0 0 && char_differs c1 1) eqn:Hm; [discriminate|].
  destruct (nextInt b i2) as [w i3] eqn:H3.
  destruct (nextInt b i3) as [hg i4] eqn:H4.
  destruct (nextInt b i4) as [mc i5] eqn:H5.
  destruct w as [w|]; [|discriminate]. destruct hg as [hg|]; [|discriminate].
  destruct mc as [mc|]; [|discriminate].
  destruct ((w >? 0)%Z && (hg >? 0)%Z && (mc =? 255)%Z &&
            (Z.of_nat (length b) =? Z.of_nat (i5 + 1) + w * hg * 3)%Z);
    [|discriminate].
  apply (inj Some) in Hf. subst f.
  exists c0, i1, c1, i2, i3, i4, i5. done.
Qed.

Lemma ppmFormat_pixelsIndex b f :
  ppmFormat b = Some f → 4 ≤ f_pixelsIndex f ≤ length b.
Proof.
  intros H. pose proof (ppmFormat_checked b f H) as (Hw & Hh & _ & Hlen).
  apply ppmFormat_inv in H.
  destruct H as (c0 & i1 & c1 & i2 & i3 & i4 & i5 & _ & _ & _ & H3 & H4 & H5 & Hpi).
  apply nextInt_Some in H3, H4, H5. nia.
Qed.

(** X1: an image that [new Ppm(bytes)] accepts has positive width and
    height and 255 colours, its pixel array holds exactly
    [3 * width * height] bytes and, with the header array, accounts for
    every byte of the buffer; both arrays are new, and the arrays that
    existed before are unchanged. *)
Theorem Ppm_parse_invariant h0 b h p :
  Ppm_parse h0 b = (h, PpmOk p) →
  (0 < width p)%Z ∧ (0 < height p)%Z ∧ maxColors p = 255%Z ∧
  Z.of_nat (length (heap_get h (pixelBytes p))) = (3 * width p * height p)%Z ∧
  length (heap_get h (hdrBytes p)) + length (heap_get h (pixelBytes p)) = length b ∧
  hdrBytes p = length h0 ∧ pixelBytes p = S (length h0) ∧
  length h = 2 + length h0 ∧
  (∀ l a, h0 !! l = Some a → h !! l = Some a).
Proof.
  intros H. apply parse_ok_inv in H. destruct H as (f & Hf & -> & ->).
  pose proof (ppmFormat_checked b f Hf) as (Hw & Hh & Hmc & Hlen).
  pose proof (ppmFormat_pixelsIndex b f Hf) as Hpi.
  destruct (heap_get_result h0 (take (f_pixelsIndex f) b) (drop (f_pixelsIndex f) b))
    as [Hpix Hhdr].
  cbn [width height maxColors hdrBytes pixelBytes].
  rewrite Hpix, Hhdr, length_take, length_drop, length_app.
  repeat split; try done; try (simpl; lia).
  intros l a Hl. rewrite lookup_app_l by (by eapply lookup_lt_Some). done.
Qed.

Lemma Ppm_parse_invariant_witness :
  Z.of_nat (length (heap_get plain_heap (pixelBytes plain_ppm))) = (3 * 4 * 4)%Z.
Proof.
  destruct (Ppm_parse_invariant [] plain_image plain_heap plain_ppm eq_refl)
    as (_ & _ & _ & H & _).
  exact H.
Defined.

(** ** The pixel bytes play no part in parsing *)

Lemma advance_while_agree p (b b' : Uint8Array) n :
  (∀ k, k < n → b' !! k = b !! k) →
  ∀ m i, length b - i = m →
    advance_while p (drop i b) i < n →
    advance_while p (drop i b') i = advance_while p (drop i b) i.
Proof.
  intros Hag. induction m as [|m IH]; intros i Hm Hj.
  - rewrite (drop_ge b) in * by lia. simpl in *.
    rewrite (drop_ge b'); [done|].
    apply lookup_ge_None. rewrite Hag by done. apply lookup_ge_None. lia.
  - destruct (lookup_lt_is_Some_2 b i ltac:(lia)) as [x Hx].
    pose proof (advance_while_spec p b _ (S i) eq_refl) as (Hle & _).
    rewrite (drop_S _ _ _ Hx) in *. cbn [advance_while] in *.
    assert (Hin : i < n) by (destruct (p x); lia).
    assert (Hx' : b' !! i = Some x) by (by rewrite Hag).
    rewrite (drop_S _ _ _ Hx'). cbn [advance_while].
    destruct (p x); [|done]. apply IH; [lia|done].
Qed.

Lemma slice_agree (b b' : Uint8Array) n i j :
  (∀ k, k < n → b' !! k = b !! k) → j ≤ n → slice b' i j = slice b i j.
Proof.
  intros Hag Hj. unfold slice. apply list_eq. intros k.
  destruct (decide (k < j - i)) as [Hk|Hk].
  - rewrite !lookup_take_lt, !lookup_drop by done. apply Hag. lia.
  - rewrite !lookup_take_ge by lia. done.
Qed.

Lemma nextInt_agree (b b' : Uint8Array) n i v j :
  (∀ k, k < n → b' !! k = b !! k) →
  nextInt b i = (Some v, j) → j < n → nextInt b' i = (Some v, j).
Proof.
  intros Hag H Hj. unfold nextInt, advanceOverNextInt in *.
  pose proof (advance_while_spec isspace b _ i eq_refl) as (Hs1 & _).
  set (s := advance_while isspace (drop i b) i) in *.
  destruct (b !! s) as [x|] eqn:Hx; [|discriminate].
  destruct (isdigit x) eqn:Hd; [|discriminate]. cbn [negb] in H.
  pose proof (advance_while_spec isdigit b _ s eq_refl) as (Hd1 & _).
  set (j0 := advance_while isdigit (drop s b) s) in *.
  destruct (Z.of_nat j0 >? 0)%Z eqn:Hpos; [|discriminate].
  rewrite Nat2Z.id in H.
  assert (Hj0 : j0 = j) by exact (f_equal snd H).
  rewrite (advance_while_agree isspace b b' n Hag _ i eq_refl) by (fold s; lia).
  fold s. rewrite Hag, Hx by lia. rewrite Hd. cbn [negb].
  rewrite (advance_while_agree isdigit b b' n Hag _ s eq_refl) by (fold j0; lia).
  fold j0. rewrite Hpos, Nat2Z.id.
  rewrite (slice_agree b b' n) by (done || lia). exact H.
Qed.

Lemma nextChar_agree (b b' : Uint8Array) n i :
  (∀ k, k < n → b' !! k = b !! k) → length b' = length b → i < n →
  nextChar b' i = nextChar b i.
Proof.
  intros Hag Hlen Hi. unfold nextChar, load. by rewrite Hlen, Hag.
Qed.

Lemma ppmFormat_same_header b f pix' :
  ppmFormat b = Some f →
  length pix' = length b - f_pixelsIndex f →
  ppmFormat (take (f_pixelsIndex f) b ++ pix') = Some f.
Proof.
  intros Hf Hlen'.
  pose proof (ppmFormat_pixelsIndex b f Hf) as Hpi.
  set (n := f_pixelsIndex f) in *. set (b' := take n b ++ pix').
  assert (Hlen : length b' = length b).
  { unfold b'. rewrite length_app, length_take. lia. }
  assert (Hag : ∀ k, k < n → b' !! k = b !! k).
  { intros k Hk. unfold b'. rewrite lookup_app_l by (rewrite length_take; lia).
    by apply lookup_take_lt. }
  pose proof Hf as Hinv. apply ppmFormat_inv in Hinv.
  destruct Hinv as (c0 & i1 & c1 & i2 & i3 & i4 & i5 &
                    Hc0 & Hc1 & Hm & H3 & H4 & H5 & Hn).
  fold n in Hn.
  pose proof (nextChar_index _ _ _ _ Hc0). pose proof (nextChar_index _ _ _ _ Hc1).
  pose proof (nextInt_Some _ _ _ _ H3). pose proof (nextInt_Some _ _ _ _ H4).
  pose proof (nextInt_Some _ _ _ _ H5).
  revert Hf. unfold ppmFormat.
  rewrite (nextChar_agree b b' n 0) by (done || lia). rewrite Hc0.
  rewrite (nextChar_agree b b' n i1) by (done || lia). rewrite Hc1, Hm.
  rewrite (nextInt_agree b b' n i2 _ i3 Hag H3) by lia. rewrite H3.
  rewrite (nextInt_agree b b' n i3 _ i4 Hag H4) by lia. rewrite H4.
  rewrite (nextInt_agree b b' n i4 _ i5 Hag H5) by lia. rewrite H5.
  by rewrite Hlen.
Qed.

(** X3: [ppmFormat] looks at the header and at the length of the buffer
    only: when a buffer is accepted, so is, with the same result, every
    buffer made of the same header followed by any pixel bytes of the
    same number. *)
Theorem ppmFormat_ignores_pixels b f pix' :
  ppmFormat b = Some f →
  length pix' = length b - f_pixelsIndex f →
  ppmFormat (take (f_pixelsIndex f) b ++ pix') = Some f.
Proof. apply ppmFormat_same_header. Qed.

Lemma ppmFormat_ignores_pixels_witness :
  ppmFormat (take 11 plain_image ++ replicate 48 Byte.x00)
    = Some (mkFormat 4 4 255 11).
Proof.
  apply (ppmFormat_ignores_pixels plain_image (mkFormat 4 4 255 11)).
  - reflexivity.
  - reflexivity.
Defined.

(** ** Hiding, writing the image out and reading it back *)

Lemma Ppm_bytes_content h p h' l :
  Ppm_bytes h p = (h', l) →
  h' = h ++ [heap_get h (hdrBytes p) ++ heap_get h (pixelBytes p)] ∧ l = length h ∧
  heap_get h' l = heap_get h (hdrBytes p) ++ heap_get h (pixelBytes p).
Proof.
  unfold Ppm_bytes, heap_alloc. rewrite typed_array_set_fill. intros H.
  pose proof (f_equal fst H) as H1. pose proof (f_equal snd H) as H2.
  simpl in H1, H2. subst h' l. split; [done|]. split; [done|].
  unfold heap_get at 1. by rewrite list_lookup_middle.
Qed.

Lemma hidden_file h0 b h p sid msg h' out h'' l :
  Ppm_parse h0 b = (h, PpmOk p) →
  hide h (mkSteg sid p) msg = Some (h', HidePpm out) →
  Ppm_bytes h' out = (h'', l) →
  ∃ f, ppmFormat b = Some f ∧
    p = mkPpm (f_width f) (f_height f) (f_maxColors f) (length h0) (S (length h0)) ∧
    8 * (STEG_MAGIC_LEN + length msg + 1) ≤ length (drop (f_pixelsIndex f) b) ∧
    heap_get h'' l =
      take (f_pixelsIndex f) b ++
        embed (payload_bits msg) 0 (drop (f_pixelsIndex f) b).
Proof.
  intros Hp Hh Hb. apply parse_ok_inv in Hp. destruct Hp as (f & Hf & -> & ->).
  exists f. split; [done|]. split; [done|].
  apply hide_ok_inv in Hh. cbn [ppm pixelBytes hdrBytes] in Hh.
  destruct (heap_get_result h0 (take (f_pixelsIndex f) b) (drop (f_pixelsIndex f) b))
    as [Hpix Hhdr].
  rewrite Hpix, Hhdr in Hh. destruct Hh as (_ & Hfit & _ & -> & ->).
  split; [done|].
  apply Ppm_bytes_content in Hb. destruct Hb as (_ & _ & ->).
  cbn [hdrBytes pixelBytes].
  match goal with
  | |- heap_get (?hh ++ [?x; ?y]) _ ++ heap_get _ _ = _ =>
      destruct (heap_get_result hh x y) as [-> ->]
  end.
  done.
Qed.

Lemma reparse_hidden h0 b h p sid msg h' out h'' l :
  Ppm_parse h0 b = (h, PpmOk p) →
  hide h (mkSteg sid p) msg = Some (h', HidePpm out) →
  Ppm_bytes h' out = (h'', l) →
  ∀ hA, ∃ hB p2,
    Ppm_parse hA (heap_get h'' l) = (hB, PpmOk p2) ∧
    width p2 = width p ∧ height p2 = height p ∧ maxColors p2 = maxColors p ∧
    ∀ sid2,
      (∃ reads, unhide hB (mkSteg sid2 p2) =
         Some (UnhideMsg (nonzero_prefix (map low8 (charCodes msg))), reads)) ∧
      (byte_message msg →
       ∃ reads, unhide hB (mkSteg sid2 p2) = Some (UnhideMsg msg, reads)).
Proof.
  intros Hp Hh Hb hA.
  destruct (hidden_file _ _ _ _ _ _ _ _ _ _ Hp Hh Hb) as (f & Hf & -> & Hfit & ->).
  pose proof (ppmFormat_pixelsIndex b f Hf) as Hpi.
  set (n := f_pixelsIndex f) in *.
  set (pix' := embed (payload_bits msg) 0 (drop n b)).
  assert (Hf' : ppmFormat (take n b ++ pix') = Some f).
  { apply ppmFormat_same_header; [done|].
    unfold pix'. by rewrite embed_length, length_drop. }
  assert (Hn : length (take n b) = n) by (rewrite length_take; lia).
  exists (hA ++ [take n b; pix']),
         (mkPpm (f_width f) (f_height f) (f_maxColors f) (length hA) (S (length hA))).
  split.
  { unfold Ppm_parse. rewrite Hf'. unfold heap_alloc, slice. fold n.
    rewrite Nat.sub_0_r, drop_0, take_app_length', drop_app_length' by done.
    rewrite length_app. cbn [length]. rewrite Nat.add_1_r, <- app_assoc. done. }
  split; [done|]. split; [done|]. split; [done|].
  intros sid2.
  assert (Hu : unhide (hA ++ [take n b; pix'])
                 (mkSteg sid2 (mkPpm (f_width f) (f_height f) (f_maxColors f)
                                 (length hA) (S (length hA)))) =
               Some (UnhideMsg (nonzero_prefix (map low8 (charCodes msg))),
                     seq 0 24 ++
                     seq 24 (8 * S (length (nonzero_prefix (map low8 (charCodes msg))))))).
  { apply (unhide_hidden msg (drop n b) Hfit). cbn [ppm pixelBytes].
    apply heap_get_result. }
  split; [eauto|]. intros Hbm. rewrite byte_message_recovered in Hu by done. eauto.
Qed.

(** X4: take an image made by [new Ppm(bytes)], hide a message in it and
    write the result out with [bytes()]; then [new Ppm] accepts the bytes
    written, in any heap, as an image of the same size, and [unhide] on
    that image returns the bytes that were embedded -- the message itself
    when it is made of non-zero bytes. *)
Theorem hide_write_read_unhide h0 b h p sid msg h' out h'' l :
  Ppm_parse h0 b = (h, PpmOk p) →
  hide h (mkSteg sid p) msg = Some (h', HidePpm out) →
  Ppm_bytes h' out = (h'', l) →
  ∀ hA, ∃ hB p2,
    Ppm_parse hA (heap_get h'' l) = (hB, PpmOk p2) ∧
    width p2 = width p ∧ height p2 = height p ∧ maxColors p2 = maxColors p ∧
    ∀ sid2,
      (∃ reads, unhide hB (mkSteg sid2 p2) =
         Some (UnhideMsg (nonzero_prefix (map low8 (charCodes msg))), reads)) ∧
      (byte_message msg →
       ∃ reads, unhide hB (mkSteg sid2 p2) = Some (UnhideMsg msg, reads)).
Proof. apply reparse_hidden. Qed.

Lemma hide_write_read_unhide_witness :
  ∃ hB p2 reads,
    Ppm_parse [] (heap_get (fst (Ppm_bytes hidden_heap hidden_ppm))
                    (snd (Ppm_bytes hidden_heap hidden_ppm))) = (hB, PpmOk p2) ∧
    unhide hB (mkSteg "out" p2) = Some (UnhideMsg [72; 105]%Z, reads).
Proof.
  destruct (hide_write_read_unhide [] plain_image plain_heap plain_ppm "in"
              [72; 105]%Z hidden_heap hidden_ppm
              (fst (Ppm_bytes hidden_heap hidden_ppm))
              (snd (Ppm_bytes hidden_heap hidden_ppm))) with (hA := @nil Uint8Array)
    as (hB & p2 & Hparse & _ & _ & _ & Hu).
  - reflexivity.
  - vm_compute. reflexivity.
  - reflexivity.
  - destruct (Hu "out") as [_ Hb]. destruct Hb as [reads Hr].
    + repeat constructor; lia.
    + eauto.
Defined.

(** X5: the file [bytes()] writes after a successful [hide] on a parsed
    image has the length of the file that was read and the same header;
    each of its bytes agrees with the byte read in the upper 7 bits, and
    the bytes beyond the first [8 * (msg.length + 4)] pixel bytes are
    those read. *)
Theorem hidden_file_frame h0 b h p sid msg h' out h'' l :
  Ppm_parse h0 b = (h, PpmOk p) →
  hide h (mkSteg sid p) msg = Some (h', HidePpm out) →
  Ppm_bytes h' out = (h'', l) →
  let b2 := heap_get h'' l in
  let n := length (heap_get h (hdrBytes p)) in
  length b2 = length b ∧
  take n b2 = take n b ∧
  (∀ i, Z.shiftr (load b2 i) 1 = Z.shiftr (load b i) 1) ∧
  (∀ i, n + 8 * (length msg + 4) ≤ i → b2 !! i = b !! i).
Proof.
  intros Hp Hh Hb b2 n.
  destruct (hidden_file _ _ _ _ _ _ _ _ _ _ Hp Hh Hb) as (f & Hf & Hpeq & Hfit & Hb2).
  pose proof (ppmFormat_pixelsIndex b f Hf) as Hpi.
  assert (Hn : n = f_pixelsIndex f).
  { apply parse_ok_inv in Hp. destruct Hp as (f' & Hf' & -> & ->).
    assert (f' = f) as -> by congruence.
    unfold n. cbn [hdrBytes].
    destruct (heap_get_result h0 (take (f_pixelsIndex f) b)
                (drop (f_pixelsIndex f) b)) as [_ ->].
    rewrite length_take. lia. }
  fold b2 in Hb2. rewrite Hn. clear Hn n. set (n := f_pixelsIndex f) in *.
  set (pix := drop n b) in *.
  assert (Hb' : b = take n b ++ pix) by (unfold pix; by rewrite take_drop).
  assert (Hlt : length (take n b) = n) by (rewrite length_take; lia).
  rewrite Hb2. split; [|split; [|split]].
  - rewrite Hb' at 2. by rewrite !length_app, embed_length.
  - by rewrite take_app_length'.
  - intros i. rewrite Hb' at 2. unfold load.
    destruct (decide (i < n)) as [Hi|Hi].
    + by rewrite !lookup_app_l by lia.
    + rewrite !lookup_app_r by lia. apply embed_upper.
  - intros i Hi. rewrite Hb' at 2. rewrite !lookup_app_r by lia.
    apply embed_lookup_ge. unfold payload_bits. rewrite length_bits_codes.
    pose proof (charCodes_length_le (STEG_MAGIC ++ msg ++ [0%Z])) as Hle.
    rewrite !length_app in Hle. cbn [length STEG_MAGIC] in Hle. lia.
Qed.

Lemma hidden_file_frame_witness :
  length (heap_get (fst (Ppm_bytes hidden_heap hidden_ppm))
            (snd (Ppm_bytes hidden_heap hidden_ppm))) = length plain_image.
Proof.
  destruct (hidden_file_frame [] plain_image plain_heap plain_ppm "in"
              [72; 105]%Z hidden_heap hidden_ppm
              (fst (Ppm_bytes hidden_heap hidden_ppm))
              (snd (Ppm_bytes hidden_heap hidden_ppm))) as (H & _).
  - reflexivity.
  - vm_compute. reflexivity.
  - reflexivity.
  - exact H.
Defined.

(** ** The command-line program *)

Lemma reparse_hidden_image h0 b h p sid msg h' out h'' l hA :
  Ppm_parse h0 b = (h, PpmOk p) →
  hide h (mkSteg sid p) msg = Some (h', HidePpm out) →
  Ppm_bytes h' out = (h'', l) →
  ∃ hdr pix,
    8 * (STEG_MAGIC_LEN + length msg + 1) ≤ length pix ∧
    Ppm_parse hA (heap_get h'' l) =
      (hA ++ [hdr; embed (payload_bits msg) 0 pix],
       PpmOk (mkPpm (width p) (height p) (maxColors p) (length hA) (S (length hA)))).
Proof.
  intros Hp Hh Hb.
  destruct (hidden_file _ _ _ _ _ _ _ _ _ _ Hp Hh Hb) as (f & Hf & -> & Hfit & ->).
  pose proof (ppmFormat_pixelsIndex b f Hf) as Hpi.
  set (n := f_pixelsIndex f) in *.
  exists (take n b), (drop n b). split; [done|].
  set (pix' := embed (payload_bits msg) 0 (drop n b)).
  assert (Hf' : ppmFormat (take n b ++ pix') = Some f).
  { apply ppmFormat_same_header; [done|].
    unfold pix'. by rewrite embed_length, length_drop. }
  assert (Hn : length (take n b) = n) by (rewrite length_take; lia).
  unfold Ppm_parse. rewrite Hf'. unfold heap_alloc, slice. fold n.
  rewrite Nat.sub_0_r, drop_0, take_app_length', drop_app_length' by done.
  rewrite length_app. cbn [length]. rewrite Nat.add_1_r, <- app_assoc. done.
Qed.

Lemma StdoutWrite_inv x y : Some (StdoutWrite x) = Some (StdoutWrite y) → x = y.
Proof.
  intros H.
  exact (f_equal (fun r => match r with Some (StdoutWrite z) => z | _ => x end) H).
Qed.

Lemma go_hide_inv basename readFile a0 a1 file msg out :
  go basename readFile [a0; a1; file; msg] = Some (StdoutWrite out) →
  ∃ data h p h' outp h'' l,
    readFile file = Some data ∧
    Ppm_parse [data] data = (h, PpmOk p) ∧
    hide h (mkSteg (basename file) p) msg = Some (h', HidePpm outp) ∧
    Ppm_bytes h' outp = (h'', l) ∧
    out = heap_get h'' l.
Proof.
  unfold go, doSteg, heap_alloc. cbn [app length].
  destruct (readFile file) as [data|]; [|discriminate].
  change (heap_get [data] 0) with data.
  destruct (Ppm_parse [data] data) as [h [|p]] eqn:Hp; [discriminate|].
  unfold cli_hide.
  destruct (hide h (mkSteg (basename file) p) msg) as [[h' [e|outp]]|] eqn:Hh;
    cbn [mbind option_bind]; try discriminate.
  destruct (Ppm_bytes h' outp) as [h'' l] eqn:Hb.
  intros H. apply StdoutWrite_inv in H.
  exists data, h, p, h', outp, h'', l. done.
Qed.

(** X6: when the program, run with a file and a message, writes an image
    to its standard output, a later run on a file holding these bytes
    prints the embedded bytes -- the message itself when it is made of
    non-zero bytes. *)
Theorem cli_hide_then_unhide basename readFile a0 a1 file msg out
    basename' readFile' b0 b1 file' :
  go basename readFile [a0; a1; file; msg] = Some (StdoutWrite out) →
  readFile' file' = Some out →
  go basename' readFile' [b0; b1; file'] =
    Some (ConsoleLog (nonzero_prefix (map low8 (charCodes msg)))) ∧
  (byte_message msg →
   go basename' readFile' [b0; b1; file'] = Some (ConsoleLog msg)).
Proof.
  intros Hgo Hread. apply go_hide_inv in Hgo.
  destruct Hgo as (data & h & p & h' & outp & h'' & l & _ & Hp & Hh & Hb & ->).
  destruct (reparse_hidden_image _ _ _ _ _ _ _ _ _ _ [heap_get h'' l] Hp Hh Hb)
    as (hdr & pix & Hfit & Hparse).
  assert (Hgo' : go basename' readFile' [b0; b1; file'] =
                 Some (ConsoleLog (nonzero_prefix (map low8 (charCodes msg))))).
  { unfold go, doSteg, heap_alloc. cbn [app length]. rewrite Hread.
    change (heap_get [heap_get h'' l] 0) with (heap_get h'' l).
    rewrite Hparse. unfold cli_unhide.
    rewrite (unhide_hidden msg pix Hfit); [done|].
    cbn [ppm pixelBytes]. apply heap_get_result. }
  split; [exact Hgo'|]. intros Hbm. by rewrite Hgo', byte_message_recovered.
Qed.

(** X7: when the program, run with a file and a message, writes an image
    to its standard output, a later run that is asked to hide any message
    in a file holding these bytes prints the STEG_MSG error and writes no
    image. *)
Theorem cli_hide_twice basename readFile a0 a1 file msg out
    basename' readFile' b0 b1 file' msg' :
  go basename readFile [a0; a1; file; msg] = Some (StdoutWrite out) →
  readFile' file' = Some out →
  go basename' readFile' [b0; b1; file'; msg'] =
    Some (ConsoleError (STEG_MSG (basename' file'))).
Proof.
  intros Hgo Hread. apply go_hide_inv in Hgo.
  destruct Hgo as (data & h & p & h' & outp & h'' & l & _ & Hp & Hh & Hb & ->).
  destruct (reparse_hidden_image _ _ _ _ _ _ _ _ _ _ [heap_get h'' l] Hp Hh Hb)
    as (hdr & pix & Hfit & Hparse).
  unfold go, doSteg, heap_alloc. cbn [app length]. rewrite Hread.
  change (heap_get [heap_get h'' l] 0) with (heap_get h'' l).
  rewrite Hparse. unfold cli_hide.
  match goal with
  | |- context [hide ?hh ?st msg'] =>
      destruct (hide_spec hh st msg') as (magic & reads & Hm & ->);
      rewrite (checkMagic_hidden msg pix Hfit hh st) in Hm
  end.
  - apply Some_pair_inv in Hm. destruct Hm as [<- _]. done.
  - cbn [ppm pixelBytes]. apply heap_get_result.
Qed.

Lemma cli_hide_then_unhide_witness :
  go (fun _ => "img") (fun _ => Some stego_image) [[]; []; [111]%Z]
    = Some (ConsoleLog [72; 105]%Z).
Proof.
  destruct (cli_hide_then_unhide (fun _ => "img") (fun _ => Some plain_image)
              [] [] [105]%Z [72; 105]%Z stego_image
              (fun _ => "img") (fun _ => Some stego_image) [] [] [111]%Z)
    as [_ H].
  - vm_compute. reflexivity.
  - reflexivity.
  - apply H. repeat constructor; lia.
Defined.

Lemma cli_hide_twice_witness :
  go (fun _ => "img") (fun _ => Some stego_image) [[]; []; [111]%Z; [33]%Z]
    = Some (ConsoleError (STEG_MSG "img")).
Proof.
  apply (cli_hide_twice (fun _ => "img") (fun _ => Some plain_image)
           [] [] [105]%Z [72; 105]%Z stego_image).
  - vm_compute. reflexivity.
  - reflexivity.
Defined.

(** ** When [checkMagic] is true *)

Lemma scan_bounded_count vals : ∀ m msg cc mask k msg' cc' mask' k',
  (Z.of_nat (length msg) < m)%Z →
  scan vals m msg cc mask k = (msg', cc', mask', k') →
  k' - k ≤ Z.to_nat m - length msg.
Proof.
  induction vals as [|v vals IH]; intros m msg cc mask k msg' cc' mask' k' Hlen H;
    cbn [scan] in H.
  - pose proof (f_equal snd H) as Hk. simpl in Hk. lia.
  - destruct (v =? 0)%Z.
    { pose proof (f_equal snd H) as Hk. simpl in Hk. lia. }
    rewrite (gtb_pos m) in H by lia. cbn [andb] in H.
    destruct (Z.of_nat (length (msg ++ [v])) >=? m)%Z eqn:Hge.
    { pose proof (f_equal snd H) as Hk. simpl in Hk. lia. }
    rewrite Z.geb_leb in Hge. apply Z.leb_gt in Hge.
    apply IH in H; [|lia]. rewrite length_app in *. simpl in *. lia.
Qed.

Lemma take3_nonzero_prefix vals :
  take 3 (nonzero_prefix vals) = STEG_MAGIC ↔ take 3 vals = STEG_MAGIC.
Proof.
  unfold STEG_MAGIC.
  destruct vals as [|a [|b [|c rest]]]; cbn [nonzero_prefix take];
    try (destruct (a =? 0)%Z eqn:Ha); try (destruct (b =? 0)%Z eqn:Hb);
    try (destruct (c =? 0)%Z eqn:Hc); cbn [take];
    try (apply Z.eqb_eq in Ha); try (apply Z.eqb_eq in Hb);
    try (apply Z.eqb_eq in Hc); subst;
    split; intros H; try discriminate H; try done.
Qed.

Lemma take3_groups bytes :
  take 3 (groups bytes 0 (length bytes / 8)) = STEG_MAGIC ↔
  3 ≤ length bytes / 8 ∧ groups bytes 0 3 = STEG_MAGIC.
Proof.
  destruct (decide (3 ≤ length bytes / 8)) as [Hc|Hc].
  - replace (length bytes / 8) with (3 + (length bytes / 8 - 3)) at 1 by lia.
    rewrite groups_app, take_app_length' by (by rewrite groups_length).
    split; [by intros ->|by intros [_ ?]].
  - split; [|intros [? _]; lia]. intros H.
    apply (f_equal length) in H. rewrite length_take, groups_length in H.
    change (length STEG_MAGIC) with 3 in H. lia.
Qed.

Lemma checkMagic_spec h this :
  let pix := heap_get h (pixelBytes (ppm this)) in
  ∃ reads,
    checkMagic h this =
      Some (bool_decide (3 ≤ length pix / 8 ∧ groups pix 0 3 = STEG_MAGIC), reads) ∧
    Forall (fun i => i < 24) reads.
Proof.
  intros pix. rewrite checkMagic_scan. fold pix. cbn zeta.
  destruct (scan _ _ _ _ _ _) as [[[msg cc] mask] k] eqn:Hscan.
  assert (Hk : k - 0 ≤ Z.to_nat 3 - length (@nil Z)).
  { eapply scan_bounded_count; [|exact Hscan]. simpl. lia. }
  destruct (scan_bounded (groups pix 0 (length pix / 8)) 3 [] None None 0)
    as (cc' & mask' & k' & Hb); [simpl; lia|].
  rewrite Hscan in Hb. pose proof (f_equal (fun x => fst (fst (fst x))) Hb) as Hmsg.
  cbn in Hmsg. subst msg.
  eexists. split.
  - do 2 f_equal. apply bool_decide_ext.
    rewrite take3_nonzero_prefix. apply take3_groups.
  - apply Forall_seq. intros j Hj. simpl in Hk. lia.
Qed.

(** X8: [checkMagic] is true exactly when there are at least 24 pixel
    bytes and the low bits of the first 24 decode to 's', 't', 'g'; it
    reads none of the other pixel bytes. *)
Theorem checkMagic_true_iff h this :
  let pix := heap_get h (pixelBytes (ppm this)) in
  ∃ magic reads,
    checkMagic h this = Some (magic, reads) ∧
    (magic = true ↔ 24 ≤ length pix ∧ groups pix 0 3 = STEG_MAGIC) ∧
    Forall (fun i => i < 24) reads.
Proof.
  intros pix. destruct (checkMagic_spec h this) as (reads & Hm & Hr).
  fold pix in Hm. do 2 eexists. split; [exact Hm|]. split; [|exact Hr].
  rewrite bool_decide_eq_true. div8 (length pix).
  split; intros [? ?]; (split; [lia|done]).
Qed.

(** ** The unbounded mode of [unhideLo], and [unhide] *)

Lemma nonzero_prefix_elem vals :
  0%Z ∈ vals → ∃ rest, vals = nonzero_prefix vals ++ 0%Z :: rest.
Proof.
  induction vals as [|v vals IH]; intros H; [by apply elem_of_nil in H|].
  simpl. destruct (v =? 0)%Z eqn:Hv.
  - apply Z.eqb_eq in Hv. subst v. by exists vals.
  - apply elem_of_cons in H. destruct H as [H|H].
    + apply Z.eqb_neq in Hv. congruence.
    + destruct (IH H) as [rest Hr]. exists rest. simpl. by rewrite <- Hr.
Qed.

Lemma unhideLo_nobound bytes off msgLen :
  (msgLen <= 0)%Z →
  let vals := groups bytes off (length bytes / 8 - off) in
  ∃ reads,
    unhideLo bytes off msgLen =
      Some (if (msgLen <? 0)%Z && negb (bool_decide (0%Z ∈ vals))
            then JsUndefined else JsStr (nonzero_prefix vals), reads).
Proof.
  intros Hm vals. rewrite unhideLo_scan. fold vals.
  destruct (decide (0%Z ∈ vals)) as [Hin|Hnin].
  - rewrite (bool_decide_eq_true_2 _ Hin). cbn [negb]. rewrite andb_false_r.
    destruct (nonzero_prefix_elem vals Hin) as [rest Hr].
    pose proof (scan_stop_at_zero (nonzero_prefix vals) rest msgLen [] None None 0
                  Hm (nonzero_prefix_nonzero vals)) as Hs.
    rewrite <- Hr in Hs. rewrite Hs.
    cbn [strict_ne_zero Z.eqb negb orb]. rewrite andb_false_r. eauto.
  - rewrite (bool_decide_eq_false_2 _ Hnin). cbn [negb]. rewrite andb_true_r.
    assert (Hnz : Forall (fun v => v ≠ 0%Z) vals).
    { apply Forall_forall. intros v Hv ->. done. }
    destruct (scan_exhausted vals msgLen [] None None 0 Hm Hnz eq_refl)
      as (cc & mask & k & -> & Hst).
    rewrite Hst, andb_true_r, nonzero_prefix_id by done. cbn [app].
    destruct (msgLen <? 0)%Z; eauto.
Qed.

(** X9: without a bound ([msgLen] negative, the default, or zero)
    [unhideLo] decodes the groups of 8 pixel bytes from the offset on and
    returns the bytes before the first zero byte; when no group decodes
    to zero -- in particular when the offset lies beyond the last complete
    group -- it returns [undefined] for a negative [msgLen] and everything
    decoded for [msgLen = 0]. *)
Theorem unhideLo_unbounded bytes off msgLen :
  (msgLen <= 0)%Z →
  let vals := groups bytes off (length bytes / 8 - off) in
  ∃ reads,
    unhideLo bytes off msgLen =
      Some (if (msgLen <? 0)%Z && negb (bool_decide (0%Z ∈ vals))
            then JsUndefined else JsStr (nonzero_prefix vals), reads).
Proof. apply unhideLo_nobound. Qed.

Lemma unhideLo_unbounded_witness :
  ∃ reads,
    unhideLo (embed (payload_bits [72; 105]%Z) 0 (replicate 48 (ToUint8 7))) 3 (-1)
      = Some (JsStr [72; 105]%Z, reads).
Proof.
  destruct (unhideLo_unbounded
              (embed (payload_bits [72; 105]%Z) 0 (replicate 48 (ToUint8 7))) 3 (-1)
              ltac:(lia)) as [reads H].
  exists reads. exact H.
Defined.

(** X10: [unhide] fails with STEG_NO_MSG exactly when [checkMagic] is
    false; otherwise it returns the bytes decoded after the prefix up to
    the first group of 8 pixel bytes that decodes to zero, and fails with
    STEG_BAD_MSG exactly when no complete group after the prefix decodes
    to zero. *)
Theorem unhide_cases h this :
  let pix := heap_get h (pixelBytes (ppm this)) in
  let rest := groups pix 3 (length pix / 8 - 3) in
  ∃ reads,
    unhide h this =
      Some (if bool_decide (3 ≤ length pix / 8 ∧ groups pix 0 3 = STEG_MAGIC)
            then (if bool_decide (0%Z ∈ rest)
                  then UnhideMsg (nonzero_prefix rest)
                  else UnhideError (STEG_BAD_MSG (id this)))
            else UnhideError (STEG_NO_MSG (id this)),
            reads).
Proof.
  intros pix rest. unfold unhide.
  destruct (checkMagic_spec h this) as (reads1 & -> & _). fold pix.
  cbn [mbind option_bind].
  destruct (bool_decide (3 ≤ length pix / 8 ∧ groups pix 0 3 = STEG_MAGIC));
    cbn [negb]; [|eauto].
  destruct (unhideLo_nobound pix STEG_MAGIC_LEN (-1) ltac:(lia)) as [reads2 ->].
  change STEG_MAGIC_LEN with 3. fold rest.
  cbn [mbind option_bind Z.ltb Z.compare andb].
  destruct (bool_decide (0%Z ∈ rest)); cbn [negb]; eauto.
Qed.

(** ** The copy made by [new Ppm(ppm)] *)

Lemma heap_store_other (h : heap) l l' i v :
  l ≠ l' → heap_get (heap_store h l i v) l' = heap_get h l'.
Proof.
  intros Hne. unfold heap_store, heap_get.
  destruct (h !! l); [|done]. by rewrite list_lookup_insert_ne.
Qed.

(** X11: [new Ppm(ppm)] is a deep copy.  The copy has the meta-information
    and the contents of the original in two new arrays; the arrays that
    existed before are unchanged; a store through an array of the copy
    leaves the original as it was, and a store through an array of the
    original leaves the copy as it was; [bytes()] gives the same bytes
    for both. *)
Theorem Ppm_copy_deep h p h' q :
  Ppm_copy h p = (h', q) →
  hdrBytes p < length h → pixelBytes p < length h →
  width q = width p ∧ height q = height p ∧ maxColors q = maxColors p ∧
  heap_get h' (hdrBytes q) = heap_get h (hdrBytes p) ∧
  heap_get h' (pixelBytes q) = heap_get h (pixelBytes p) ∧
  length h ≤ hdrBytes q ∧ length h ≤ pixelBytes q ∧ hdrBytes q ≠ pixelBytes q ∧
  (∀ l a, h !! l = Some a → h' !! l = Some a) ∧
  (∀ i v,
     heap_get (heap_store h' (pixelBytes q) i v) (pixelBytes p)
       = heap_get h (pixelBytes p) ∧
     heap_get (heap_store h' (hdrBytes q) i v) (hdrBytes p)
       = heap_get h (hdrBytes p) ∧
     heap_get (heap_store h' (pixelBytes p) i v) (pixelBytes q)
       = heap_get h (pixelBytes p) ∧
     heap_get (heap_store h' (hdrBytes p) i v) (hdrBytes q)
       = heap_get h (hdrBytes p)) ∧
  heap_get (fst (Ppm_bytes h' q)) (snd (Ppm_bytes h' q))
    = heap_get (fst (Ppm_bytes h p)) (snd (Ppm_bytes h p)).
Proof.
  unfold Ppm_copy, heap_alloc. intros H Hhdr Hpix.
  set (hdr := heap_get h (hdrBytes p)) in *.
  assert (Hg : heap_get (h ++ [hdr]) (pixelBytes p) = heap_get h (pixelBytes p)).
  { unfold heap_get. by rewrite lookup_app_l. }
  rewrite Hg in H. set (pix := heap_get h (pixelBytes p)) in *.
  rewrite length_app, <- app_assoc in H. cbn [length app] in H.
  rewrite Nat.add_1_r in H.
  pose proof (f_equal fst H) as H1. pose proof (f_equal snd H) as H2.
  cbn [fst snd] in H1, H2. subst h' q.
  cbn [width height maxColors hdrBytes pixelBytes].
  destruct (heap_get_result h hdr pix) as [Hp' Hh'].
  assert (Hkeep : ∀ l a, h !! l = Some a → (h ++ [hdr; pix]) !! l = Some a).
  { intros l a Hl. rewrite lookup_app_l by (by eapply lookup_lt_Some). done. }
  assert (Hold : ∀ l, l < length h → heap_get (h ++ [hdr; pix]) l = heap_get h l).
  { intros l Hl. unfold heap_get. by rewrite lookup_app_l. }
  split; [done|]. split; [done|]. split; [done|]. split; [done|]. split; [done|].
  split; [lia|]. split; [lia|]. split; [lia|]. split; [exact Hkeep|].
  split.
  - intros i v. rewrite !heap_store_other by lia.
    rewrite Hp', Hh', !Hold by done. done.
  - destruct (Ppm_bytes (h ++ [hdr; pix])
                (mkPpm (width p) (height p) (maxColors p) (length h) (S (length h))))
      as [h1 l1] eqn:E1.
    destruct (Ppm_bytes h p) as [h2 l2] eqn:E2.
    apply Ppm_bytes_content in E1, E2. cbn [fst snd].
    destruct E1 as (_ & _ & ->). destruct E2 as (_ & _ & ->).
    cbn [hdrBytes pixelBytes]. by rewrite Hp', Hh'.
Qed.

Lemma Ppm_copy_deep_witness :
  heap_get (heap_store (fst (Ppm_copy plain_heap plain_ppm))
              (pixelBytes (snd (Ppm_copy plain_heap plain_ppm))) 0 255)
    (pixelBytes plain_ppm) = replicate 48 (ToUint8 7).
Proof.
  destruct (Ppm_copy_deep plain_heap plain_ppm
              (fst (Ppm_copy plain_heap plain_ppm))
              (snd (Ppm_copy plain_heap plain_ppm)))
    as (_ & _ & _ & _ & _ & _ & _ & _ & _ & H & _).
  - reflexivity.
  - simpl. lia.
  - simpl. lia.
  - destruct (H 0 255%Z) as [H1 _]. exact H1.
Defined.

(** ** [Steg] of the web service against [StegModule] *)

Lemma loadZ_drop (bytes : Uint8Array) n i :
  loadZ bytes (Z.of_nat n + Z.of_nat i) = load (drop n bytes) i.
Proof.
  unfold loadZ, load.
  replace (Z.of_nat n + Z.of_nat i <? 0)%Z with false by (symmetry; apply Z.ltb_ge; lia).
  rewrite lookup_drop. by replace (Z.to_nat (Z.of_nat n + Z.of_nat i)) with (n + i) by lia.
Qed.

Lemma Steg_bits_sim bytes n maxOffset fuel : ∀ i mask cc reads,
  Steg_unhideLo_bits fuel bytes (Z.of_nat n + Z.of_nat maxOffset)
      (Z.of_nat n + Z.of_nat i) mask cc (shift_reads n reads) =
    (fun '(i', mask', cc', reads') =>
       ((Z.of_nat n + Z.of_nat i')%Z, mask', cc', shift_reads n reads'))
      <$> unhideLo_bits fuel (drop n bytes) maxOffset i mask cc reads.
Proof.
  induction fuel as [|fuel IH]; intros i mask cc reads;
    cbn [Steg_unhideLo_bits unhideLo_bits];
    replace (Z.of_nat n + Z.of_nat i <? Z.of_nat n + Z.of_nat maxOffset)%Z
      with (i <? maxOffset)
      by (destruct (Nat.ltb_spec i maxOffset);
          [symmetry; apply Z.ltb_lt; lia|symmetry; apply Z.ltb_ge; lia]);
    destruct (negb (mask =? 0)%Z && (i <? maxOffset)); try done.
  rewrite loadZ_drop.
  replace (Z.of_nat n + Z.of_nat i + 1)%Z with (Z.of_nat n + Z.of_nat (S i))%Z by lia.
  replace (shift_reads n reads ++ [(Z.of_nat n + Z.of_nat i)%Z])
    with (shift_reads n (reads ++ [i])).
  - apply IH.
  - unfold shift_reads. rewrite map_app. simpl. do 2 f_equal. lia.
Qed.

Lemma Steg_chars_sim bytes n maxOffset msgLen fuel : ∀ i msg cc mask reads,
  Steg_unhideLo_chars fuel bytes (Z.of_nat n + Z.of_nat maxOffset) msgLen
      (Z.of_nat n + Z.of_nat i) msg cc mask (shift_reads n reads) =
    (fun '(msg', cc', mask', reads') => (msg', cc', mask', shift_reads n reads'))
      <$> unhideLo_chars fuel (drop n bytes) maxOffset msgLen i msg cc mask reads.
Proof.
  induction fuel as [|fuel IH]; intros i msg cc mask reads;
    cbn [Steg_unhideLo_chars unhideLo_chars];
    replace (Z.of_nat n + Z.of_nat i <? Z.of_nat n + Z.of_nat maxOffset)%Z
      with (i <? maxOffset)
      by (destruct (Nat.ltb_spec i maxOffset);
          [symmetry; apply Z.ltb_lt; lia|symmetry; apply Z.ltb_ge; lia]);
    destruct (i <? maxOffset); try done.
  rewrite Steg_bits_sim.
  destruct (unhideLo_bits CHAR_BIT (drop n bytes) maxOffset i
              (Z.shiftl 1 (Z.of_nat (CHAR_BIT - 1))) 0 reads)
    as [[[[i' mask'] cc'] reads']|]; cbn [fmap option_fmap option_map]; [|done].
  destruct (cc' =? 0)%Z; [done|].
  destruct ((msgLen >? 0)%Z && (Z.of_nat (length (msg ++ [cc'])) >=? msgLen)%Z);
    [done|].
  apply IH.
Qed.

Lemma unhideLo_chars_fuel bytes msgLen fuel off :
  length bytes / 8 ≤ fuel →
  unhideLo_chars fuel bytes (length bytes / 8 * 8) msgLen (off * CHAR_BIT)
      [] None None [] =
    unhideLo_chars (length bytes) bytes (length bytes / 8 * 8) msgLen
      (off * CHAR_BIT) [] None None [].
Proof.
  intros Hfuel.
  replace (length bytes / 8 * 8) with (8 * (length bytes / 8)) by lia.
  replace (off * CHAR_BIT) with (8 * (off + 0)) by (unfold CHAR_BIT; lia).
  pose proof (unhideLo_chars_scan bytes (length bytes / 8) msgLen off [] fuel 0
                [] None None) as H1.
  pose proof (unhideLo_chars_scan bytes (length bytes / 8) msgLen off []
                (length bytes) 0 [] None None) as H2.
  rewrite Nat.mul_0_r in H1, H2. cbn [app seq] in H1, H2.
  rewrite H1, H2; [done| |lia].
  div8 (length bytes). lia.
Qed.

Lemma Steg_chars_done fuel bytes maxOffset msgLen i msg cc mask reads :
  (maxOffset <= i)%Z →
  Steg_unhideLo_chars fuel bytes maxOffset msgLen i msg cc mask reads =
    Some (msg, cc, mask, reads).
Proof.
  intros H. apply Z.ltb_ge in H. destruct fuel; simpl; by rewrite H.
Qed.

Lemma Steg_unhideLo_sim h ppm off msgLen :
  Steg_unhideLo h ppm off msgLen =
    (fun '(v, reads) => (v, shift_reads (nHeaderBytes ppm) reads))
      <$> unhideLo (drop (nHeaderBytes ppm) (heap_get h (ws_bytes ppm))) off msgLen.
Proof.
  unfold Steg_unhideLo, unhideLo.
  set (n := nHeaderBytes ppm). set (bytes := heap_get h (ws_bytes ppm)).
  destruct (decide (n ≤ length bytes)) as [Hn|Hn].
  - rewrite length_drop.
    replace (Z.of_nat n + (Z.of_nat (length bytes) - Z.of_nat n) / 8 * 8)%Z
      with (Z.of_nat n + Z.of_nat ((length bytes - n) / 8 * 8))%Z.
    2:{ rewrite Nat2Z.inj_mul, Nat2Z.inj_div, Nat2Z.inj_sub by lia. done. }
    replace (Z.of_nat n + Z.of_nat off * Z.of_nat CHAR_BIT)%Z
      with (Z.of_nat n + Z.of_nat (off * CHAR_BIT))%Z by lia.
    change (@nil Z) with (shift_reads n []) at 2.
    rewrite Steg_chars_sim.
    pose proof (unhideLo_chars_fuel (drop n bytes) msgLen (length bytes) off) as Hf.
    rewrite length_drop in Hf. rewrite Hf.
    2:{ div8 (length bytes - n). lia. }
    clear Hf.
    destruct (unhideLo_chars _ _ _ _ _ _ _ _ _) as [[[[msg cc] mask] reads]|];
      [|reflexivity].
    cbn [fmap option_fmap option_map mbind option_bind].
    by destruct ((msgLen <? 0)%Z && (strict_ne_zero mask || strict_ne_zero cc)).
  - rewrite (drop_ge bytes n) by lia.
    rewrite Steg_chars_done.
    + cbn. by destruct (msgLen <? 0)%Z.
    + assert ((Z.of_nat (length bytes) - Z.of_nat n) / 8 * 8 <= 0)%Z.
      { assert ((Z.of_nat (length bytes) - Z.of_nat n) / 8 < 0)%Z; [|lia].
        apply Z.div_lt_upper_bound; lia. }
      unfold CHAR_BIT. lia.
Qed.

Lemma Steg_unhide_sim h wp h' this :
  heap_get h' (pixelBytes (ppm this)) =
    drop (nHeaderBytes wp) (heap_get h (ws_bytes wp)) →
  id this = ws_id wp →
  Steg_unhide h wp =
    (fun '(r, reads) => (as_Steg_result r, shift_reads (nHeaderBytes wp) reads))
      <$> unhide h' this.
Proof.
  intros Hpix Hid. unfold Steg_unhide, Steg_checkMagic, unhide, checkMagic.
  rewrite !Steg_unhideLo_sim, Hpix, Hid.
  destruct (unhideLo _ 0 _) as [[magic reads1]|]; [|reflexivity].
  cbn [fmap option_fmap option_map mbind option_bind].
  destruct (negb (strict_eq_str magic STEG_MAGIC)); [reflexivity|].
  destruct (unhideLo _ STEG_MAGIC_LEN _) as [[v reads2]|]; [|reflexivity].
  cbn [fmap option_fmap option_map mbind option_bind].
  unfold shift_reads. destruct v; cbn; by rewrite map_app.
Qed.

(** X12: [Steg] of the web service, which works on the whole file with
    an offset [nHeaderBytes], and [StegModule], which works on the pixel
    bytes, agree: on an image whose pixel bytes are the file's bytes from
    [nHeaderBytes] on, [unhideLo] and [unhide] give the same string, or
    the same error, and read the same bytes; so [Steg] never reads a
    header byte nor a byte at or beyond the end of the file. *)
Theorem Steg_agrees_with_StegModule h wp h' this :
  let n := nHeaderBytes wp in
  let file := heap_get h (ws_bytes wp) in
  heap_get h' (pixelBytes (ppm this)) = drop n file →
  id this = ws_id wp →
  (∀ off msgLen,
     Steg_unhideLo h wp off msgLen =
       (fun '(v, reads) => (v, shift_reads n reads))
         <$> unhideLo (drop n file) off msgLen) ∧
  ∃ r reads,
    unhide h' this = Some (r, reads) ∧
    Steg_unhide h wp = Some (as_Steg_result r, shift_reads n reads) ∧
    Forall (fun i => Z.of_nat n <= i < Z.of_nat (length file))%Z
      (shift_reads n reads).
Proof.
  intros n file Hpix Hid. split.
  { intros off msgLen. apply Steg_unhideLo_sim. }
  destruct (unhide_reads h' this) as (r & reads & Hu & Hr).
  exists r, reads. split; [exact Hu|]. split.
  - rewrite (Steg_unhide_sim h wp h' this Hpix Hid), Hu. done.
  - rewrite Hpix, length_drop in Hr. fold file in Hr.
    unfold shift_reads. apply Forall_fmap. eapply Forall_impl; [exact Hr|].
    intros j Hj. unfold compose. cbv beta in Hj |- *.
    div8 (length file - n). lia.
Qed.

Lemma Steg_agrees_with_StegModule_witness :
  ∃ reads,
    Steg_unhide [stego_image] (mkWsPpm "img" 0 11)
      = Some (StegReturn [72; 105]%Z, reads).
Proof.
  destruct (Steg_agrees_with_StegModule [stego_image] (mkWsPpm "img" 0 11)
              hidden_heap (mkSteg "img" hidden_ppm))
    as (_ & r & reads & Hu & Hs & _).
  - vm_compute. reflexivity.
  - reflexivity.
  - assert (Hr : r = UnhideMsg [72; 105]%Z).
    { assert (Hu' : unhide hidden_heap (mkSteg "img" hidden_ppm)
                    = Some (UnhideMsg [72; 105]%Z, seq 0 48))
        by (vm_compute; reflexivity).
      rewrite Hu' in Hu.
      exact (f_equal (fun o => match o with Some (x, _) => x | None => r end)
               (eq_sym Hu)). }
    rewrite Hr in Hs. eauto.
Defined.

(** ** The three outcomes of [hide] *)

(** X13: [hide] has three outcomes, decided in this order: STEG_MSG when
    the low bits of the first 24 pixel bytes decode to 'stg', whatever
    the message; otherwise STEG_TOO_BIG when [3 + msg.length + 1] exceeds
    the number of complete groups of 8 pixel bytes; otherwise a new image.
    In both error cases nothing is allocated and no array is changed. *)
Theorem hide_outcomes h this msg :
  let p := ppm this in
  let pix := heap_get h (pixelBytes p) in
  hide h this msg =
    Some (if bool_decide (3 ≤ length pix / 8 ∧ groups pix 0 3 = STEG_MAGIC)
          then (h, HideError (STEG_MSG (id this)))
          else if bool_decide (length pix / 8 < 3 + length msg + 1)
          then (h, HideError (STEG_TOO_BIG (id this)))
          else (h ++ [heap_get h (hdrBytes p); embed (payload_bits msg) 0 pix],
                HidePpm (mkPpm (width p) (height p) (maxColors p)
                           (length h) (S (length h))))).
Proof.
  intros p pix.
  destruct (hide_spec h this msg) as (magic & reads & Hm & ->).
  destruct (checkMagic_spec h this) as (reads' & Hm' & _).
  rewrite Hm' in Hm. apply Some_pair_inv in Hm. destruct Hm as [<- _].
  fold p pix. destruct (bool_decide (3 ≤ _ ∧ _)); [done|].
  destruct (too_big (length msg) (length pix)) eqn:Hb.
  - apply too_big_spec in Hb. unfold capacityBytes, STEG_MAGIC_LEN in Hb.
    cbn [length STEG_MAGIC] in Hb. by rewrite bool_decide_eq_true_2.
  - rewrite bool_decide_eq_false_2; [done|]. intros Hlt.
    assert (too_big (length msg) (length pix) = true); [|congruence].
    apply too_big_spec. unfold capacityBytes, STEG_MAGIC_LEN.
    cbn [length STEG_MAGIC]. lia.
Qed.

(** ** Buffers too short to be an image *)

Lemma Number_of_digits_bound ds :
  Forall (fun x => isdigit x = true) ds → (Number_of ds < 10 ^ Z.of_nat (length ds))%Z.
Proof.
  unfold Number_of. intros H.
  assert (Hg : ∀ acc, (0 <= acc)%Z →
            (fold_left (fun acc b =>
                if isdigit b then (10 * acc + (u8 b - 48))%Z else acc) ds acc
             < (acc + 1) * 10 ^ Z.of_nat (length ds))%Z).
  { induction H as [|d ds Hd Hds IH]; intros acc Hacc.
    - simpl. lia.
    - cbn [fold_left length]. rewrite Hd.
      unfold isdigit in Hd. apply andb_prop in Hd. destruct Hd as [Hd1 Hd2].
      apply Z.leb_le in Hd1, Hd2.
      specialize (IH (10 * acc + (u8 d - 48))%Z ltac:(lia)).
      rewrite Nat2Z.inj_succ, Z.pow_succ_r by lia.
      assert (0 < 10 ^ Z.of_nat (length ds))%Z by (apply Z.pow_pos_nonneg; lia).
      nia. }
  specialize (Hg 0%Z ltac:(lia)). lia.
Qed.

Lemma nextInt_digits buf index v index' :
  nextInt buf index = (Some v, index') →
  ∃ s, index ≤ s ∧ s < index' ≤ length buf ∧
    (v < 10 ^ Z.of_nat (index' - s))%Z ∧
    (∃ x, buf !! s = Some x ∧ isdigit x = true) ∧
    (∀ x, buf !! index' = Some x → isdigit x = false).
Proof.
  intros H. pose proof (nextInt_run buf index) as Hs. rewrite H in Hs.
  destruct Hs as (_ & s & H1 & H2 & H3 & _ & Hd & Hend & ->).
  exists s. split; [done|]. split; [lia|]. split; [|split; [apply Hd; lia|done]].
  assert (Hl : length (slice buf s index') = index' - s).
  { unfold slice. rewrite length_take, length_drop. lia. }
  rewrite <- Hl. apply Number_of_digits_bound, Forall_lookup.
  intros k x Hk. apply slice_lookup in Hk. destruct Hk as [Hk Hlt].
  destruct (Hd (s + k) ltac:(lia)) as (y & Hy & Hdig). congruence.
Qed.

Lemma ppmFormat_min_size b f :
  ppmFormat b = Some f → 10 ≤ f_pixelsIndex f ∧ 13 ≤ length b.
Proof.
  intros Hf. pose proof (ppmFormat_checked b f Hf) as (Hw & Hh & Hmc & Hlen).
  apply ppmFormat_inv in Hf.
  destruct Hf as (c0 & i1 & c1 & i2 & i3 & i4 & i5 &
                  Hc0 & Hc1 & _ & H3 & H4 & H5 & Hpi).
  apply nextInt_digits in H3, H4, H5.
  destruct H3 as (s3 & H3a & H3b & _ & _ & H3e).
  destruct H4 as (s4 & H4a & H4b & _ & (x4 & Hx4 & Hd4) & H4e).
  destruct H5 as (s5 & H5a & H5b & H5v & (x5 & Hx5 & Hd5) & _).
  assert (Hi2 : i2 = 2).
  { unfold nextChar in Hc0, Hc1.
    destruct (0 <? length b) eqn:E0;
      apply (f_equal snd) in Hc0; cbn [snd] in Hc0; subst i1.
    - destruct (1 <? length b) eqn:E1;
        apply (f_equal snd) in Hc1; cbn [snd] in Hc1; subst i2; [done|].
      apply Nat.ltb_ge in E1. lia.
    - apply Nat.ltb_ge in E0. lia. }
  assert (Hs4 : i3 < s4).
  { destruct (decide (i3 < s4)) as [|Hn]; [done|].
    assert (s4 = i3) as -> by lia. specialize (H3e _ Hx4). congruence. }
  assert (Hs5 : i4 < s5).
  { destruct (decide (i4 < s5)) as [|Hn]; [done|].
    assert (s5 = i4) as -> by lia. specialize (H4e _ Hx5). congruence. }
  assert (Hd3 : 3 ≤ i5 - s5).
  { destruct (decide (3 ≤ i5 - s5)) as [|Hn]; [done|].
    rewrite Hmc in H5v.
    assert (Hp : (10 ^ Z.of_nat (i5 - s5) <= 10 ^ 2)%Z)
      by (apply Z.pow_le_mono_r; lia).
    change (10 ^ 2)%Z with 100%Z in Hp. lia. }
  split; [lia|nia].
Qed.

(** X14: [new Ppm(bytes)] rejects every buffer of fewer than 13 bytes, the
    empty one included, and allocates nothing for it; an accepted header
    has at least 10 bytes.  There is an image of exactly 13 bytes. *)
Theorem Ppm_rejects_short h0 b :
  (length b < 13 → Ppm_parse h0 b = (h0, PpmError)) ∧
  (∀ h p, Ppm_parse h0 b = (h, PpmOk p) →
     10 ≤ length (heap_get h (hdrBytes p)) ∧ 13 ≤ length b) ∧
  length smallest_image = 13 ∧
  snd (Ppm_parse h0 smallest_image) = PpmOk (mkPpm 1 1 255 (length h0) (length h0 + 1)).
Proof.
  split; [|split; [|split]].
  - intros Hlen. unfold Ppm_parse.
    destruct (ppmFormat b) as [f|] eqn:Hf; [|done].
    apply ppmFormat_min_size in Hf. lia.
  - intros h p H. apply parse_ok_inv in H. destruct H as (f & Hf & -> & ->).
    pose proof (ppmFormat_min_size b f Hf) as [H10 H13].
    split; [|done]. cbn [hdrBytes].
    destruct (heap_get_result h0 (take (f_pixelsIndex f) b)
                (drop (f_pixelsIndex f) b)) as [_ ->].
    rewrite length_take. lia.
  - reflexivity.
  - unfold Ppm_parse. replace (ppmFormat smallest_image)
      with (Some (mkFormat 1 1 255 10)) by reflexivity.
    unfold heap_alloc. cbn [snd f_width f_height f_maxColors]. by rewrite length_app.
Qed.

Lemma Ppm_rejects_short_witness : Ppm_parse [] [] = ([], PpmError).
Proof.
  destruct (Ppm_rejects_short [] []) as [H _]. apply H. simpl. lia.
Defined.
